(** * SignalingServer: the STUN address-discovery client (stun.js) and the
      room-based signaling relay (server.js), embedded in Rocq.

    The file has two parts.  [Stun] models the binary codec of stun.js
    (big-endian reads on a Node [Buffer], the attribute walk of
    [decodeXorAddress]) and the one-shot transaction of [getPublicAddress].
    [Relay] models the message and close handlers of server.js over the
    global [rooms] object. *)

From stdpp Require Import gmap strings list fin_maps.
From Stdlib Require Import ZArith Lia Bool List DecimalString.
From Stdlib.Strings Require Import Byte.
From Stdlib Require Import String Ascii.
From Equations Require Import Equations.
Import ListNotations.

(** ** JavaScript 32-bit integer operators

    The bitwise operators of JavaScript work on 32-bit integers: the operands
    are wrapped by ToInt32 (ToUint32 for [>>>]) and so is the result. *)

Module JS.
Local Open Scope Z_scope.

Definition toUint32 (x : Z) : Z := x mod 2 ^ 32.

Definition toInt32 (x : Z) : Z := (x + 2 ^ 31) mod 2 ^ 32 - 2 ^ 31.

(** [a >>> n] *)
Definition ushr (a n : Z) : Z := Z.shiftr (toUint32 a) (toUint32 n mod 32).

(** [a ^ b] *)
Definition xor (a b : Z) : Z := toInt32 (Z.lxor (toInt32 a) (toInt32 b)).

(** [a & b] *)
Definition and (a b : Z) : Z := toInt32 (Z.land (toInt32 a) (toInt32 b)).

(** [String(n)] for an integral number [n]: its decimal digits. *)
Definition numToString (n : Z) : string := NilZero.string_of_int (Z.to_int n).

(** [Array.prototype.join] on an array of strings. *)
Fixpoint join (sep : string) (l : list string) : string :=
  match l with
  | [] => EmptyString
  | [x] => x
  | x :: rest => String.append x (String.append sep (join sep rest))
  end.

End JS.

(** ** stun.js *)

Module Stun.
Local Open Scope Z_scope.

(** A Node [Buffer]: a sequence of octets. *)
Definition Buffer := list byte.

Definition byteVal (b : byte) : Z := Z.of_N (Byte.to_N b).

Definition buflen (msg : Buffer) : Z := Z.of_nat (List.length msg).

Definition MAGIC_COOKIE : Z := 0x2112A442.
Definition TIMEOUT : Z := 3000.
Definition BINDING_REQUEST_TYPE : Z := 0x0001.
Definition BINDING_RESPONSE_TYPE : Z := 0x0101.
Definition XOR_MAPPED_ADDRESS_TYPE : Z := 0x0020.

(** What a [throw] carries.  [RangeError] is what the Buffer read methods of
    Node throw for an offset outside the buffer; the two others are the
    [Error]s that stun.js itself constructs, named after their messages. *)
Inductive error : Type :=
| RangeError
| InvalidStunResponse      (* 'Invalid STUN response' *)
| NoXorMappedAddress.      (* 'No XOR-MAPPED-ADDRESS found in STUN response' *)

Inductive result (A : Type) : Type :=
| Ok (a : A)
| Throw (e : error).
Arguments Ok {A} a.
Arguments Throw {A} e.

Definition bind {A B} (r : result A) (k : A -> result B) : result B :=
  match r with
  | Ok a => k a
  | Throw e => Throw e
  end.

Notation "'let*' x ':=' r 'in' k" := (bind r (fun x => k))
  (at level 10, x name, r at level 100, k at level 200).

(** [msg.readUInt8(offset)] *)
Definition readUInt8 (msg : Buffer) (offset : Z) : result Z :=
  if offset <? 0 then Throw RangeError
  else match nth_error msg (Z.to_nat offset) with
       | Some b => Ok (byteVal b)
       | None => Throw RangeError
       end.

(** [msg.readUInt16BE(offset)]: two octets, most significant first. *)
Definition readUInt16BE (msg : Buffer) (offset : Z) : result Z :=
  let* first := readUInt8 msg offset in
  let* last := readUInt8 msg (offset + 1) in
  Ok (first * 2 ^ 8 + last).

Record ResolvedAddress : Type := { ip : string; port : Z }.

(** The loop [for (let i = 0; i < 4; i++)] of [decodeXorAddress], collecting
    [ipBytes]; [n] counts the iterations that remain. *)
Fixpoint ipBytesFrom (msg : Buffer) (offset : Z) (i : Z) (n : nat) : result (list Z) :=
  match n with
  | O => Ok []
  | S n' =>
      let magicByte := JS.and (JS.ushr MAGIC_COOKIE (24 - i * 8)) 0xFF in
      let* encodedByte := readUInt8 msg (offset + 8 + i) in
      let* rest := ipBytesFrom msg offset (i + 1) n' in
      Ok (JS.xor encodedByte magicByte :: rest)
  end.

(** The body of [if (attrType === XOR_MAPPED_ADDRESS_TYPE)]. *)
Definition decodeFound (msg : Buffer) (offset : Z) : result ResolvedAddress :=
  let* family := readUInt8 msg (offset + 5) in
  let* xPort := readUInt16BE msg (offset + 6) in
  let port := JS.xor xPort (JS.ushr MAGIC_COOKIE 16) in
  let* ipBytes := ipBytesFrom msg offset 0 4 in
  Ok {| ip := JS.join "." (map JS.numToString ipBytes); port := port |}.

(** [attrLength % 4 ? 4 - attrLength % 4 : 0] *)
Definition padding (attrLength : Z) : Z :=
  if negb (Z.rem attrLength 4 =? 0) then 4 - Z.rem attrLength 4 else 0.

(** [offset += 4 + attrLength + padding] *)
Definition nextOffset (offset attrLength : Z) : Z :=
  offset + (4 + attrLength + padding attrLength).

(** The two reads at the top of the loop body: [attrType], then
    [attrLength]. *)
Definition readAttrHeader (msg : Buffer) (offset : Z) : result (Z * Z) :=
  let* attrType := readUInt16BE msg offset in
  let* attrLength := readUInt16BE msg (offset + 2) in
  Ok (attrType, attrLength).

(** [inspect x] keeps the equation between [x] and the pattern it is matched
    against. *)
Definition inspect {A : Type} (x : A) : {y : A | x = y} := exist _ x eq_refl.

Lemma byteVal_range (b : byte) : 0 <= byteVal b <= 255.
Proof.
  unfold byteVal. pose proof (Byte.to_N_bounded b) as H.
  apply N2Z.inj_le in H. change (Z.of_N 255) with 255 in H.
  pose proof (N2Z.is_nonneg (Byte.to_N b)). lia.
Qed.

Lemma readUInt8_range msg offset v :
  readUInt8 msg offset = Ok v -> 0 <= v <= 255.
Proof.
  unfold readUInt8. destruct (offset <? 0); [discriminate|].
  destruct (nth_error msg (Z.to_nat offset)); [|discriminate].
  intros [= <-]. apply byteVal_range.
Qed.

Lemma readUInt16BE_range msg offset v :
  readUInt16BE msg offset = Ok v -> 0 <= v <= 65535.
Proof.
  unfold readUInt16BE, bind.
  destruct (readUInt8 msg offset) as [hi|] eqn:Hhi; [|discriminate].
  destruct (readUInt8 msg (offset + 1)) as [lo|] eqn:Hlo; [|discriminate].
  intros [= <-]. apply readUInt8_range in Hhi, Hlo. lia.
Qed.

Lemma readAttrHeader_range msg offset t l :
  readAttrHeader msg offset = Ok (t, l) -> 0 <= t <= 65535 /\ 0 <= l <= 65535.
Proof.
  unfold readAttrHeader, bind.
  destruct (readUInt16BE msg offset) eqn:Ht; [|discriminate].
  destruct (readUInt16BE msg (offset + 2)) eqn:Hl; [|discriminate].
  intros [= <- <-]. apply readUInt16BE_range in Ht, Hl. lia.
Qed.

Lemma padding_range l : 0 <= l -> 0 <= padding l < 4.
Proof.
  intros Hl. unfold padding. rewrite Z.rem_mod_nonneg by lia.
  pose proof (Z.mod_pos_bound l 4 ltac:(lia)).
  destruct (l mod 4 =? 0) eqn:E; simpl; lia.
Qed.

(** The [while (offset < msg.length)] loop of [decodeXorAddress], from the
    value [offset] has when the loop condition is evaluated.  Every iteration
    that does not leave the loop adds at least four to [offset], which is why
    the loop ends. *)
Equations? walk (msg : Buffer) (offset : Z) : result ResolvedAddress
  by wf (Z.to_nat (buflen msg - offset)) lt :=
walk msg offset with Z_lt_dec offset (buflen msg) := {
  | right _ => Throw NoXorMappedAddress
  | left _ with inspect (readAttrHeader msg offset) := {
      | exist _ (Throw e) _ => Throw e
      | exist _ (Ok (attrType, attrLength)) _
          with Z.eq_dec attrType XOR_MAPPED_ADDRESS_TYPE := {
          | left _ => decodeFound msg offset
          | right _ => walk msg (nextOffset offset attrLength) } } }.
Proof.
  apply readAttrHeader_range in e. unfold nextOffset.
  pose proof (padding_range attrLength). lia.
Qed.

Definition decodeXorAddress (msg : Buffer) : result ResolvedAddress :=
  walk msg 20.

(** The [try] block of the ['message'] listener in [getPublicAddress], up to
    the value handed to [resolve] or the error handed to [reject]. *)
Definition decodeResponse (responseMsg : Buffer) : result ResolvedAddress :=
  let* t := readUInt16BE responseMsg 0 in
  if negb (t =? BINDING_RESPONSE_TYPE) then Throw InvalidStunResponse
  else decodeXorAddress responseMsg.

(** *** The responses that the round-trip properties decode

    stun.js only decodes responses; the STUN server builds them.  The
    definitions below build a Binding Response the way the specification words
    it: a 20-byte header, then TLV attributes padded to four octets, the
    XOR-MAPPED-ADDRESS value being the port XORed with the high 16 bits of the
    magic constant and each address octet XORed with the corresponding octet
    of the constant, most significant first. *)

Definition byteOf (z : Z) : byte :=
  match Byte.of_N (Z.to_N (z mod 256)) with
  | Some b => b
  | None => x00
  end.

Definition u16be (v : Z) : Buffer := [byteOf (v / 256); byteOf (v mod 256)].

Definition u32be (v : Z) : Buffer := u16be (v / 65536) ++ u16be (v mod 65536).

Definition magicOctet (i : Z) : Z := (MAGIC_COOKIE / 2 ^ (24 - 8 * i)) mod 256.

Definition xorMappedAddressAttr (a b c d p : Z) : Buffer :=
  u16be XOR_MAPPED_ADDRESS_TYPE ++ u16be 8
    ++ [x00; x01]
    ++ u16be (Z.lxor p (MAGIC_COOKIE / 2 ^ 16))
    ++ [byteOf (Z.lxor a (magicOctet 0)); byteOf (Z.lxor b (magicOctet 1));
        byteOf (Z.lxor c (magicOctet 2)); byteOf (Z.lxor d (magicOctet 3))].

(** An attribute other than the one looked for: its type and its value. *)
Record attribute : Type := { attrType : Z; attrValue : Buffer }.

(** The number of octets that bring a value of [n] octets to a multiple of
    four. *)
Definition padCount (n : Z) : Z := (4 - n mod 4) mod 4.

Definition encodeAttribute (a : attribute) : Buffer :=
  u16be (attrType a) ++ u16be (buflen (attrValue a))
    ++ attrValue a ++ repeat x00 (Z.to_nat (padCount (buflen (attrValue a)))).

Definition encodeAttributes (l : list attribute) : Buffer :=
  List.concat (map encodeAttribute l).

Definition responseHeader (bodyLength : Z) (transactionId : Buffer) : Buffer :=
  u16be BINDING_RESPONSE_TYPE ++ u16be bodyLength ++ u32be MAGIC_COOKIE
    ++ transactionId.

(** A response with the attributes [before], then XOR-MAPPED-ADDRESS, then
    the octets [after]. *)
Definition bindingResponse (transactionId : Buffer) (before : list attribute)
    (a b c d p : Z) (after : Buffer) : Buffer :=
  let body := encodeAttributes before ++ xorMappedAddressAttr a b c d p ++ after in
  responseHeader (buflen body) transactionId ++ body.

Definition unrelated (a : attribute) : Prop :=
  0 <= attrType a <= 65535 /\ attrType a <> XOR_MAPPED_ADDRESS_TYPE
  /\ buflen (attrValue a) <= 65535.

(** The dotted quad that [ipBytes.join('.')] prints for four octets. *)
Definition dottedQuad (a b c d : Z) : string :=
  JS.join "." (map JS.numToString [a; b; c; d]).

(** [reaches msg offset offset']: starting at [offset], the attribute walk
    comes to [offset'] by stepping over attributes of other types, each of
    them with a header that can be read. *)
Inductive reaches (msg : Buffer) : Z -> Z -> Prop :=
| reaches_here offset : reaches msg offset offset
| reaches_skip offset t l offset' :
    offset < buflen msg ->
    readAttrHeader msg offset = Ok (t, l) ->
    t <> XOR_MAPPED_ADDRESS_TYPE ->
    reaches msg (nextOffset offset l) offset' ->
    reaches msg offset offset'.

(** The attribute walk runs off the end of the buffer without meeting the
    XOR-MAPPED-ADDRESS type: the specification's AttributeNotFound. *)
Definition exhausted (msg : Buffer) : Prop :=
  exists offset, reaches msg 20 offset /\ buflen msg <= offset.

(** The attribute walk comes to an attribute where a read goes past the end
    of the buffer: in its header, or in the value of XOR-MAPPED-ADDRESS. *)
Definition overrun (msg : Buffer) : Prop :=
  exists offset,
    reaches msg 20 offset /\ offset < buflen msg /\
    (readAttrHeader msg offset = Throw RangeError
     \/ (exists l, readAttrHeader msg offset = Ok (XOR_MAPPED_ADDRESS_TYPE, l))
        /\ decodeFound msg offset = Throw RangeError).

(** A response cut off inside the value of XOR-MAPPED-ADDRESS: the header,
    the attribute header, and the first two octets of the value. *)
Definition truncatedResponse : Buffer :=
  [x01; x01; x00; x0c; x21; x12; xa4; x42;
   x00; x01; x02; x03; x04; x05; x06; x07; x08; x09; x0a; x0b;
   x00; x20; x00; x08; x00; x01].

(** A response whose only attribute is SOFTWARE (type 0x8022) with a value of
    three octets, and one with that attribute before XOR-MAPPED-ADDRESS. *)
Definition sampleTransactionId : Buffer :=
  [x00; x01; x02; x03; x04; x05; x06; x07; x08; x09; x0a; x0b].

Definition softwareAttr : attribute :=
  {| attrType := 0x8022; attrValue := [x61; x62; x63] |}.

Definition sampleResponse : Buffer :=
  bindingResponse sampleTransactionId [softwareAttr] 192 0 2 1 54321 [].

(** *** The transaction of [getPublicAddress]

    One call of [getPublicAddress] owns one socket, one [isClosed] flag and one
    promise.  Its callbacks are run by the event loop, one at a time and in
    any order; each is a function on the state below. *)

(** What [reject] is called with. *)
Inductive rejection : Type :=
| SocketError (message : string)   (* `Socket error: ${err.message}` *)
| SendFailed                       (* 'Failed to send STUN request' *)
| Caught (e : error)               (* the error caught in the 'message' listener *)
| TimedOut.                        (* 'STUN request timed out' *)

(** A promise settles once: [resolve] and [reject] do nothing on a promise
    that is no longer pending. *)
Inductive promise : Type :=
| Pending
| Fulfilled (value : ResolvedAddress)
| Rejected (reason : rejection).

Record transaction : Type := {
  isClosed : bool;        (* the flag of [getPublicAddress] *)
  closeCalls : nat;       (* how many times [socket.close()] has run *)
  settled : promise
}.

Definition started : transaction :=
  {| isClosed := false; closeCalls := 0%nat; settled := Pending |}.

Definition resolve (value : ResolvedAddress) (t : transaction) : transaction :=
  match settled t with
  | Pending => {| isClosed := isClosed t; closeCalls := closeCalls t;
                  settled := Fulfilled value |}
  | _ => t
  end.

Definition reject (reason : rejection) (t : transaction) : transaction :=
  match settled t with
  | Pending => {| isClosed := isClosed t; closeCalls := closeCalls t;
                  settled := Rejected reason |}
  | _ => t
  end.

Definition closeSocket (t : transaction) : transaction :=
  if negb (isClosed t)
  then {| isClosed := true; closeCalls := S (closeCalls t); settled := settled t |}
  else t.

(** The callbacks that [getPublicAddress] registers. *)
Inductive callback : Type :=
| OnError (message : string)        (* socket.on('error', ...) *)
| OnSent (err : bool)               (* the callback given to socket.send *)
| OnMessage (responseMsg : Buffer)  (* socket.on('message', ...) *)
| OnTimeout.                        (* the setTimeout callback *)

Definition run1 (c : callback) (t : transaction) : transaction :=
  match c with
  | OnError message => closeSocket (reject (SocketError message) t)
  | OnSent err =>
      if err then closeSocket (reject SendFailed t) else t
  | OnMessage responseMsg =>
      match decodeResponse responseMsg with
      | Ok result => resolve result (closeSocket t)
      | Throw e => reject (Caught e) (closeSocket t)
      end
  | OnTimeout => reject TimedOut (closeSocket t)
  end.

Definition run (cs : list callback) (t : transaction) : transaction :=
  fold_left (fun t c => run1 c t) cs t.

(** A callback that ends the transaction: a response, the timeout, or a
    socket error (reported by the ['error'] event or by the send callback). *)
Definition terminal (c : callback) : bool :=
  match c with
  | OnSent false => false
  | _ => true
  end.

(** How the transaction ends when [c] is the first terminal callback. *)
Definition outcomeOf (c : callback) : promise :=
  match c with
  | OnError message => Rejected (SocketError message)
  | OnSent _ => Rejected SendFailed
  | OnMessage responseMsg =>
      match decodeResponse responseMsg with
      | Ok result => Fulfilled result
      | Throw e => Rejected (Caught e)
      end
  | OnTimeout => Rejected TimedOut
  end.

(** The transaction after its first terminal callback [c]: the socket closed
    by one call of [socket.close()], the promise settled as [c] says. *)
Definition completed (c : callback) : transaction :=
  {| isClosed := true; closeCalls := 1%nat; settled := outcomeOf c |}.

(** *** [createStunBindingRequest] *)

(** [Buffer.alloc(n)] *)
Definition alloc (n : nat) : Buffer := repeat x00 n.

(** [buf[i] = v] for an integer [v]: the octet [v mod 256] is stored; an
    index outside the buffer stores nothing. *)
Definition setByte (buf : Buffer) (i : Z) (v : Z) : Buffer :=
  if i <? 0 then buf else <[Z.to_nat i := byteOf v]> buf.

(** [buf.writeUInt16BE(value, offset)]: Node throws a RangeError for a value
    outside 0..65535 and for an offset that leaves no room for two octets. *)
Definition writeUInt16BE (buf : Buffer) (value offset : Z) : result Buffer :=
  if (value <? 0) || (65535 <? value) then Throw RangeError
  else if (offset <? 0) || (buflen buf <? offset + 2) then Throw RangeError
  else Ok (setByte (setByte buf offset (value / 2 ^ 8)) (offset + 1) value).

(** [buf.writeUInt32BE(value, offset)] *)
Definition writeUInt32BE (buf : Buffer) (value offset : Z) : result Buffer :=
  if (value <? 0) || (4294967295 <? value) then Throw RangeError
  else if (offset <? 0) || (buflen buf <? offset + 4) then Throw RangeError
  else Ok (setByte
             (setByte
                (setByte (setByte buf (offset + 3) value)
                         (offset + 2) (value / 2 ^ 8))
                (offset + 1) (value / 2 ^ 16))
             offset (value / 2 ^ 24)).

(** The loop [for (let i = 8; i < 20; i++)] of [createStunBindingRequest];
    [random k] is the integer that the call number [k] of
    [Math.floor(Math.random() * 256)] gives, and [n] counts the iterations
    that remain. *)
Fixpoint fillRandom (random : nat -> Z) (buf : Buffer) (i : Z) (k n : nat) : Buffer :=
  match n with
  | O => buf
  | S n' => fillRandom random (setByte buf i (random k)) (i + 1) (S k) n'
  end.

Definition createStunBindingRequest (random : nat -> Z) : result Buffer :=
  let buffer := alloc 20 in
  let* buffer := writeUInt16BE buffer BINDING_REQUEST_TYPE 0 in
  let* buffer := writeUInt16BE buffer 0x0000 2 in
  let* buffer := writeUInt32BE buffer MAGIC_COOKIE 4 in
  Ok (fillRandom random buffer 8 0 12).

(** The transaction id that [createStunBindingRequest] writes. *)
Definition transactionIdOf (random : nat -> Z) : Buffer :=
  map (fun k => byteOf (random k)) (seq 0 12).

(** Two buffers of the same length that differ at most in the octets 2 to 19:
    the length field, the magic constant and the transaction id. *)
Definition sameOutsideHeader (m1 m2 : Buffer) : Prop :=
  List.length m1 = List.length m2
  /\ forall i : nat, (i < 2 \/ 20 <= i)%nat -> nth_error m1 i = nth_error m2 i.

(** An XOR-MAPPED-ADDRESS attribute with any declared length, reserved octet
    and family octet. *)
Definition xorMappedAddressRaw (declared : Z) (reserved family : byte)
    (a b c d p : Z) : Buffer :=
  u16be XOR_MAPPED_ADDRESS_TYPE ++ u16be declared
    ++ [reserved; family]
    ++ u16be (Z.lxor p (MAGIC_COOKIE / 2 ^ 16))
    ++ [byteOf (Z.lxor a (magicOctet 0)); byteOf (Z.lxor b (magicOctet 1));
        byteOf (Z.lxor c (magicOctet 2)); byteOf (Z.lxor d (magicOctet 3))].

Definition sampleRandom : nat -> Z := fun k => Z.of_nat k * 37 + 11.

(** [sampleResponse] with another length field, magic constant and
    transaction id. *)
Definition sampleResponseOtherId : Buffer :=
  [x01; x01; xff; xff; xde; xad; xbe; xef;
   xa0; xa1; xa2; xa3; xa4; xa5; xa6; xa7; xa8; xa9; xaa; xab]
  ++ skipn 20 sampleResponse.

End Stun.

(** ** server.js *)

Module Relay.

(** A WebSocket object [ws], known by its identity. *)
Definition conn := nat.

(** The object [data] that [JSON.parse(message)] returns, as far as the
    handler looks into it: the fields [type], [roomId] and [username] when
    they hold a string ([None] for a field that is absent), and the rest of
    the object, which the handler only passes on. *)
Record data : Type := {
  type : option string;
  roomId : option string;
  username : option string;
  payload : string
}.

(** What [JSON.stringify] is applied to before [send]. *)
Inductive message : Type :=
| RoomCreated (roomId : string)            (* { type: "room-created", roomId } *)
| UserJoined (username : option string)    (* { type: "user-joined", username } *)
| StartWebrtc                              (* { type: "start-webrtc" } *)
| ErrorMessage (message : string)          (* { type: "error", message } *)
| Forwarded (d : data).                    (* data itself *)

(** The global [rooms] object and the [roomId] property that the handlers
    put on the sockets. *)
Record registry : Type := {
  rooms : gmap string (list conn);
  wsRoomId : gmap conn string
}.

Definition initial : registry := {| rooms := ∅; wsRoomId := ∅ |}.

(** [rooms] is created by the literal [{}], so a property that it does not own
    is looked up in [Object.prototype]. *)
Definition objectPrototypeKeys : list string :=
  ["constructor"; "__proto__"; "hasOwnProperty"; "isPrototypeOf";
   "propertyIsEnumerable"; "toLocaleString"; "toString"; "valueOf";
   "__defineGetter__"; "__defineSetter__"; "__lookupGetter__";
   "__lookupSetter__"].

(** The value of [rooms[key]]: a participant array that [rooms] owns, a member
    of [Object.prototype] (truthy, and without [push], [forEach] or
    [filter]), or [undefined]. *)
Inductive value : Type :=
| Participants (l : list conn)
| Inherited
| Undefined.

Definition get (rs : gmap string (list conn)) (key : string) : value :=
  match rs !! key with
  | Some l => Participants l
  | None => if bool_decide (key ∈ objectPrototypeKeys) then Inherited else Undefined
  end.

(** The property key that a [roomId] field is converted to. *)
Definition toPropertyKey (r : option string) : string :=
  match r with
  | Some s => s
  | None => "undefined"
  end.

(** Truthiness of a string. *)
Definition truthy (s : string) : bool := negb (String.eqb s "").

(** [ws.roomId = roomId] *)
Definition setRoomId (ws : conn) (r : option string) (m : gmap conn string)
    : gmap conn string :=
  match r with
  | Some s => <[ws := s]> m
  | None => delete ws m
  end.

(** [s.substring(2)] *)
Definition substringFrom2 (s : string) : string :=
  substring 2 (String.length s - 2) s.

(** The [while (code.length < 25)] loop of [createRoomId]; [draws] are the
    strings that the calls of [Math.random().toString(36)] return, and [None]
    means that the loop asks for more of them than [draws] has. *)
Fixpoint extendCode (code : string) (draws : list string) : option string :=
  if String.length code <? 25 then
    match draws with
    | [] => None
    | r :: rest => extendCode (String.append code (substringFrom2 r)) rest
    end
  else Some code.

Definition createRoomId (draws : list string) : option string :=
  match draws with
  | [] => None
  | r :: rest =>
      match extendCode (substring 2 25 r) rest with
      | Some code => Some (substring 0 25 code)
      | None => None
      end
  end.

(** What a handler leaves behind: the registry, the [send] calls it made, in
    order, and whether it ended by throwing a [TypeError]. *)
Record outcome : Type := {
  after : registry;
  sent : list (conn * message);
  threw : bool
}.

Definition skip (st : registry) : outcome :=
  {| after := st; sent := []; threw := false |}.

Definition andThen (o : outcome) (k : registry -> outcome) : outcome :=
  if threw o then o
  else let o' := k (after o) in
       {| after := after o'; sent := sent o ++ sent o'; threw := threw o' |}.

Definition isType (d : data) (t : string) : bool :=
  bool_decide (type d = Some t).

(** [if (data.type === "create-room") { ... }]; [newRoomId] is what the call
    [createRoomId()] returns. *)
Definition createRoomBranch (newRoomId : string) (ws : conn) (st : registry)
    : outcome :=
  {| after := {| rooms := <[newRoomId := [ws]]> (rooms st);
                 wsRoomId := <[ws := newRoomId]> (wsRoomId st) |};
     sent := [(ws, RoomCreated newRoomId)];
     threw := false |}.

(** [if (data.type === "join-room") { ... }]; [isOpen client] tells whether
    [client.readyState === WebSocket.OPEN]. *)
Definition joinRoomBranch (isOpen : conn -> bool) (ws : conn) (d : data)
    (st : registry) : outcome :=
  let key := toPropertyKey (roomId d) in
  match get (rooms st) key with
  | Participants l =>
      let l' := l ++ [ws] in
      {| after := {| rooms := <[key := l']> (rooms st);
                     wsRoomId := setRoomId ws (roomId d) (wsRoomId st) |};
         sent := map (fun client => (client, UserJoined (username d)))
                     (List.filter isOpen l')
                 ++ (if (2 <=? List.length l')%nat
                     then match l' with
                          | first :: _ => [(first, StartWebrtc)]
                          | [] => []
                          end
                     else []);
         threw := false |}
  | Inherited => {| after := st; sent := []; threw := true |}
  | Undefined =>
      {| after := st; sent := [(ws, ErrorMessage "Room not found")];
         threw := false |}
  end.

(** The branch for ["webrtc-offer"], ["webrtc-answer"] and ["webrtc-ice"]. *)
Definition relayBranch (isOpen : conn -> bool) (ws : conn) (d : data)
    (st : registry) : outcome :=
  match get (rooms st) (toPropertyKey (roomId d)) with
  | Participants roomUsers =>
      {| after := st;
         sent := map (fun client => (client, Forwarded d))
                     (List.filter (fun client => negb (client =? ws)%nat && isOpen client)
                                  roomUsers);
         threw := false |}
  | Inherited => {| after := st; sent := []; threw := true |}
  | Undefined => skip st
  end.

(** [ws.on("message", ...)], after [JSON.parse]. *)
Definition onMessage (newRoomId : string) (isOpen : conn -> bool) (ws : conn)
    (d : data) (st : registry) : outcome :=
  andThen
    (andThen
       (if isType d "create-room" then createRoomBranch newRoomId ws st else skip st)
       (fun st => if isType d "join-room" then joinRoomBranch isOpen ws d st else skip st))
    (fun st =>
       if isType d "webrtc-offer" || isType d "webrtc-answer" || isType d "webrtc-ice"
       then relayBranch isOpen ws d st else skip st).

(** [ws.on("close", ...)] *)
Definition onClose (ws : conn) (st : registry) : outcome :=
  match wsRoomId st !! ws with
  | Some r =>
      if truthy r then
        match get (rooms st) r with
        | Participants l =>
            let l' := List.filter (fun client => negb (client =? ws)%nat) l in
            {| after := {| rooms := if (List.length l' =? 0)%nat
                                    then delete r (rooms st)
                                    else <[r := l']> (rooms st);
                           wsRoomId := wsRoomId st |};
               sent := []; threw := false |}
        | Inherited => {| after := st; sent := []; threw := true |}
        | Undefined => skip st
        end
      else skip st
  | None => skip st
  end.

(** What the transport delivers to the handlers. *)
Inductive event : Type :=
| Message (newRoomId : string) (isOpen : conn -> bool) (ws : conn) (d : data)
| Close (ws : conn).

Definition handle (e : event) (st : registry) : outcome :=
  match e with
  | Message newRoomId isOpen ws d => onMessage newRoomId isOpen ws d st
  | Close ws => onClose ws st
  end.

Definition runEvents (es : list event) (st : registry) : registry :=
  fold_left (fun st e => after (handle e st)) es st.

(** *** Properties of a registry and of a run *)

(** The sockets that a sequence of [send] calls gives "start-webrtc" to. *)
Definition isStartWebrtc (m : message) : bool :=
  match m with
  | StartWebrtc => true
  | _ => false
  end.

Definition startTargets (log : list (conn * message)) : list conn :=
  map fst (List.filter (fun s => isStartWebrtc (snd s)) log).

Definition isNegotiation (d : data) : bool :=
  isType d "webrtc-offer" || isType d "webrtc-answer" || isType d "webrtc-ice".

(** [data.type] is none of the five strings that the handler compares it
    with. *)
Definition unrecognized (d : data) : bool :=
  negb (isType d "create-room" || isType d "join-room" || isNegotiation d).

(** A socket is in at most one room. *)
Definition inOneRoom (st : registry) : Prop :=
  forall ws r1 r2 l1 l2,
    rooms st !! r1 = Some l1 -> rooms st !! r2 = Some l2 ->
    List.In ws l1 -> List.In ws l2 -> r1 = r2.

(** No room lists a socket twice. *)
Definition noDuplicates (st : registry) : Prop :=
  forall r l, rooms st !! r = Some l -> List.NoDup l.

(** No room of the registry has an empty list. *)
Definition noEmptyRoom (st : registry) : Prop :=
  forall r l, rooms st !! r = Some l -> l <> [].

(** Every room id of the registry has the 25 characters of an id that
    [createRoomId] returns. *)
Definition generatedKeys (st : registry) : Prop :=
  forall r l, rooms st !! r = Some l -> String.length r = 25%nat.

(** Every socket of a room has that room's id as its [roomId]. *)
Definition backReferences (st : registry) : Prop :=
  forall r l ws,
    rooms st !! r = Some l -> List.In ws l -> wsRoomId st !! ws = Some r.

(** What holds of the registry along a run in which no socket creates or
    joins a room twice. *)
Definition consistent (st : registry) : Prop :=
  generatedKeys st /\ backReferences st /\ noDuplicates st.

(** The socket that an event puts into a room, if any: the sender of a
    "create-room", or of a "join-room" that names a room of the registry. *)
Definition entersRoom (e : event) (st : registry) : option conn :=
  match e with
  | Message _ _ ws d =>
      if isType d "create-room" then Some ws
      else if isType d "join-room" then
             match get (rooms st) (toPropertyKey (roomId d)) with
             | Participants _ => Some ws
             | _ => None
             end
           else None
  | Close _ => None
  end.

(** In the run of [es] from [st], a socket that creates or joins a room has
    no [roomId] yet: no socket creates or joins a room twice. *)
Fixpoint freshJoins (es : list event) (st : registry) : Prop :=
  match es with
  | [] => True
  | e :: es' =>
      (forall ws, entersRoom e st = Some ws -> wsRoomId st !! ws = None)
      /\ freshJoins es' (after (handle e st))
  end.

(** The ids that the "create-room" messages of [es] get are ids that
    [createRoomId] can return. *)
Definition generatedId (e : event) : Prop :=
  match e with
  | Message newRoomId _ _ d =>
      isType d "create-room" = true -> String.length newRoomId = 25%nat
  | Close _ => True
  end.

(** Every [roomId] that a socket carries has the 25 characters of a generated
    id. *)
Definition generatedRoomIds (st : registry) : Prop :=
  forall ws r, wsRoomId st !! ws = Some r -> String.length r = 25%nat.

(** The characters that the draws of [Math.random().toString(36)] offer to
    [createRoomId]: each draw without its first two characters. *)
Definition available (draws : list string) : string :=
  String.concat "" (map substringFrom2 draws).

(** A digit of base 36, as [toString(36)] writes it. *)
Definition isBase36 (ch : ascii) : bool :=
  let n := nat_of_ascii ch in
  ((48 <=? n) && (n <=? 57)) || ((97 <=? n) && (n <=? 122)).

(** *** Sample messages and runs *)

Definition roomA : string := "k3j9x0q2m7c1v8b4n6z5a0s1d".
Definition roomB : string := "p9o8i7u6y5t4r3e2w1q0l9k8j".

Definition allOpen : conn -> bool := fun _ => true.

Definition createRoomMsg : data :=
  {| type := Some "create-room"; roomId := None; username := None; payload := "" |}.

Definition joinRoomMsg (r : option string) (name : string) : data :=
  {| type := Some "join-room"; roomId := r; username := Some name; payload := "" |}.

Definition iceMsg (r : option string) : data :=
  {| type := Some "webrtc-ice"; roomId := r; username := None;
     payload := "candidate:0 1 UDP 2122252543 192.0.2.1 54321 typ host" |}.

(** Socket 0 creates room A; sockets 1 and 2 join it. *)
Definition twoInRoomA : registry :=
  runEvents [Message roomA allOpen 0%nat createRoomMsg;
             Message roomB allOpen 1%nat (joinRoomMsg (Some roomA) "bob")]
            initial.

(** Socket 0 creates room A and then room B. *)
Definition createsTwice : list event :=
  [Message roomA allOpen 0%nat createRoomMsg;
   Message roomB allOpen 0%nat createRoomMsg].

(** Socket 0 creates room A, socket 1 joins it, both leave. *)
Definition meetAndLeave : list event :=
  [Message roomA allOpen 0%nat createRoomMsg;
   Message roomB allOpen 1%nat (joinRoomMsg (Some roomA) "bob");
   Close 0%nat; Close 1%nat].

End Relay.

Module StunFacts.
Import Stun.
Local Open Scope Z_scope.

Lemma walk_unfold msg offset :
  walk msg offset =
  if offset <? buflen msg then
    match readAttrHeader msg offset with
    | Throw e => Throw e
    | Ok (t, l) =>
        if t =? XOR_MAPPED_ADDRESS_TYPE then decodeFound msg offset
        else walk msg (nextOffset offset l)
    end
  else Throw NoXorMappedAddress.
Proof.
  funelim (walk msg offset).
  all: try (destruct (Z.ltb_spec offset (buflen msg)); [lia|reflexivity]).
  all: destruct (Z.ltb_spec offset (buflen msg)); [|lia].
  all: match goal with E : readAttrHeader _ _ = _ |- _ => rewrite E end.
  - reflexivity.
  - subst. reflexivity.
  - match goal with |- context [?t =? _] =>
      destruct (Z.eqb_spec t XOR_MAPPED_ADDRESS_TYPE); [contradiction|]
    end.
    reflexivity.
Qed.

(** Induction along the attribute walk: to prove [P] at an offset, one may
    assume it at the offset of the next attribute. *)
Lemma walk_induction (msg : Buffer) (P : Z -> Prop) :
  (forall offset,
      (forall t l, offset < buflen msg ->
                   readAttrHeader msg offset = Ok (t, l) ->
                   t <> XOR_MAPPED_ADDRESS_TYPE ->
                   P (nextOffset offset l)) ->
      P offset) ->
  forall offset, P offset.
Proof.
  intros step offset.
  remember (Z.to_nat (buflen msg - offset)) as n eqn:Hn.
  revert offset Hn. induction n as [n IH] using lt_wf_ind.
  intros offset Hn. apply step. intros t l Hlt Hhdr _.
  apply readAttrHeader_range in Hhdr.
  pose proof (padding_range l ltac:(lia)).
  apply (IH (Z.to_nat (buflen msg - nextOffset offset l))); [|reflexivity].
  unfold nextOffset. lia.
Qed.

Lemma toInt32_small x : - 2 ^ 31 <= x < 2 ^ 31 -> JS.toInt32 x = x.
Proof.
  intros H. unfold JS.toInt32.
  change (2 ^ 31) with 2147483648 in *. change (2 ^ 32) with 4294967296.
  rewrite Z.mod_small; lia.
Qed.

Lemma lxor_bound k a b :
  0 <= k -> 0 <= a < 2 ^ k -> 0 <= b < 2 ^ k -> 0 <= Z.lxor a b < 2 ^ k.
Proof.
  intros Hk Ha Hb.
  assert (Hnn : 0 <= Z.lxor a b) by (apply Z.lxor_nonneg; lia).
  split; [exact Hnn|].
  destruct (Z.eq_dec (Z.lxor a b) 0) as [->|Hne]; [apply Z.pow_pos_nonneg; lia|].
  destruct (Z.eq_dec k 0) as [->|Hk0].
  { change (2 ^ 0) with 1 in *. assert (a = 0) by lia. assert (b = 0) by lia.
    subst. rewrite Z.lxor_0_r in Hne. lia. }
  apply Z.log2_lt_pow2; [lia|].
  pose proof (Z.log2_lxor a b ltac:(lia) ltac:(lia)) as Hlog.
  assert (Z.log2 a < k).
  { destruct (Z.eq_dec a 0) as [->|]; [simpl; lia|apply Z.log2_lt_pow2; lia]. }
  assert (Z.log2 b < k).
  { destruct (Z.eq_dec b 0) as [->|]; [simpl; lia|apply Z.log2_lt_pow2; lia]. }
  lia.
Qed.

Lemma xor_small k a b :
  0 <= k <= 31 -> 0 <= a < 2 ^ k -> 0 <= b < 2 ^ k ->
  JS.xor a b = Z.lxor a b.
Proof.
  intros Hk Ha Hb.
  assert (2 ^ k <= 2 ^ 31) by (apply Z.pow_le_mono_r; lia).
  pose proof (lxor_bound k a b ltac:(lia) Ha Hb).
  change (2 ^ 31) with 2147483648 in *.
  unfold JS.xor.
  rewrite (toInt32_small a), (toInt32_small b), toInt32_small;
    change (2 ^ 31) with 2147483648; lia.
Qed.

Lemma magic_high : JS.ushr MAGIC_COOKIE 16 = 0x2112.
Proof. reflexivity. Qed.

Lemma magic_byte i :
  0 <= i < 4 ->
  JS.and (JS.ushr MAGIC_COOKIE (24 - i * 8)) 0xFF = magicOctet i.
Proof.
  intros H.
  assert (i = 0 \/ i = 1 \/ i = 2 \/ i = 3) as [-> | [-> | [-> | ->]]] by lia;
    reflexivity.
Qed.

Lemma magicOctet_range i : 0 <= magicOctet i < 2 ^ 8.
Proof. unfold magicOctet. apply Z.mod_pos_bound. reflexivity. Qed.

Ltac bind_inv H :=
  repeat match type of H with
    | bind ?r _ = Ok _ =>
        let E := fresh "E" in
        destruct r eqn:E; simpl in H; [|discriminate H]
    end.

(** What [decodeFound] returns when none of its reads is out of range. *)
Lemma decodeFound_inv msg offset r :
  decodeFound msg offset = Ok r ->
  exists xPort e0 e1 e2 e3,
    readUInt16BE msg (offset + 6) = Ok xPort /\
    readUInt8 msg (offset + 8 + 0) = Ok e0 /\
    readUInt8 msg (offset + 8 + 1) = Ok e1 /\
    readUInt8 msg (offset + 8 + 2) = Ok e2 /\
    readUInt8 msg (offset + 8 + 3) = Ok e3 /\
    r = {| ip := dottedQuad (Z.lxor e0 (magicOctet 0)) (Z.lxor e1 (magicOctet 1))
                            (Z.lxor e2 (magicOctet 2)) (Z.lxor e3 (magicOctet 3));
           port := Z.lxor xPort 0x2112 |}.
Proof.
  unfold decodeFound. intros H.
  destruct (readUInt8 msg (offset + 5)) as [family|] eqn:Ef; [|discriminate].
  cbn [bind] in H.
  destruct (readUInt16BE msg (offset + 6)) as [xPort|] eqn:Ep; [|discriminate].
  cbn [bind ipBytesFrom] in H.
  change (0 + 1 + 1 + 1) with 3 in H. change (0 + 1 + 1) with 2 in H.
  change (0 + 1) with 1 in H.
  destruct (readUInt8 msg (offset + 8 + 0)) as [e0|] eqn:E0; [|discriminate].
  cbn [bind] in H.
  destruct (readUInt8 msg (offset + 8 + 1)) as [e1|] eqn:E1; [|discriminate].
  cbn [bind] in H.
  destruct (readUInt8 msg (offset + 8 + 2)) as [e2|] eqn:E2; [|discriminate].
  cbn [bind] in H.
  destruct (readUInt8 msg (offset + 8 + 3)) as [e3|] eqn:E3; [|discriminate].
  cbn [bind] in H.
  injection H as <-.
  exists xPort, e0, e1, e2, e3. repeat (split; [reflexivity|]).
  pose proof (readUInt16BE_range _ _ _ Ep).
  pose proof (readUInt8_range _ _ _ E0). pose proof (readUInt8_range _ _ _ E1).
  pose proof (readUInt8_range _ _ _ E2). pose proof (readUInt8_range _ _ _ E3).
  rewrite magic_high, !magic_byte by lia.
  rewrite (xor_small 16 xPort), (xor_small 8 e0), (xor_small 8 e1),
    (xor_small 8 e2), (xor_small 8 e3);
    try apply magicOctet_range; try (change (2 ^ 8) with 256; lia);
    try (change (2 ^ 16) with 65536; lia); try lia.
  reflexivity.
Qed.

(** A successful walk returns what [decodeFound] returns at some offset. *)
Lemma walk_ok_found msg r :
  forall offset, walk msg offset = Ok r ->
                 exists offset', decodeFound msg offset' = Ok r.
Proof.
  apply (walk_induction msg
           (fun offset => walk msg offset = Ok r ->
                          exists offset', decodeFound msg offset' = Ok r)).
  intros offset IH. rewrite walk_unfold.
  destruct (Z.ltb_spec offset (buflen msg)); [|discriminate].
  destruct (readAttrHeader msg offset) as [[t l]|] eqn:Eh; [|discriminate].
  destruct (Z.eqb_spec t XOR_MAPPED_ADDRESS_TYPE).
  - intros Hf. exists offset. exact Hf.
  - intros Hw. apply (IH t l); solve [assumption | reflexivity].
Qed.

Lemma byteVal_byteOf z : 0 <= z <= 255 -> byteVal (byteOf z) = z.
Proof.
  intros H. unfold byteVal, byteOf. rewrite Z.mod_small by lia.
  destruct (Byte.of_N (Z.to_N z)) as [b|] eqn:E.
  - apply Byte.to_of_N in E. rewrite E. lia.
  - apply Byte.of_N_None_iff in E. lia.
Qed.

Lemma buflen_app (x y : Buffer) : buflen (x ++ y) = buflen x + buflen y.
Proof. unfold buflen. rewrite List.length_app. lia. Qed.

Lemma buflen_nonneg (x : Buffer) : 0 <= buflen x.
Proof. unfold buflen. lia. Qed.

Lemma readUInt8_app_r (pre post : Buffer) offset i :
  offset = buflen pre + i -> 0 <= i ->
  readUInt8 (pre ++ post) offset = readUInt8 post i.
Proof.
  intros -> Hi. unfold readUInt8, buflen.
  destruct (Z.ltb_spec (Z.of_nat (List.length pre) + i) 0); [lia|].
  destruct (Z.ltb_spec i 0); [lia|].
  replace (Z.to_nat (Z.of_nat (List.length pre) + i))
    with (List.length pre + Z.to_nat i)%nat by lia.
  rewrite nth_error_app2 by lia.
  replace (List.length pre + Z.to_nat i - List.length pre)%nat
    with (Z.to_nat i) by lia.
  reflexivity.
Qed.

Lemma readUInt16BE_app_r (pre post : Buffer) offset i :
  offset = buflen pre + i -> 0 <= i ->
  readUInt16BE (pre ++ post) offset = readUInt16BE post i.
Proof.
  intros Ho Hi. unfold readUInt16BE.
  rewrite (readUInt8_app_r pre post offset i Ho Hi).
  rewrite (readUInt8_app_r pre post (offset + 1) (i + 1)) by lia.
  reflexivity.
Qed.

Lemma readAttrHeader_app_r (pre post : Buffer) offset :
  offset = buflen pre ->
  readAttrHeader (pre ++ post) offset = readAttrHeader post 0.
Proof.
  intros Ho. unfold readAttrHeader.
  rewrite (readUInt16BE_app_r pre post offset 0) by lia.
  rewrite (readUInt16BE_app_r pre post (offset + 2) (0 + 2)) by lia.
  reflexivity.
Qed.

Lemma ipBytesFrom_app_r (pre post : Buffer) n :
  forall i, 0 <= i ->
            ipBytesFrom (pre ++ post) (buflen pre) i n = ipBytesFrom post 0 i n.
Proof.
  induction n as [|n IH]; intros i Hi; [reflexivity|].
  cbn [ipBytesFrom].
  rewrite (readUInt8_app_r pre post (buflen pre + 8 + i) (0 + 8 + i)) by lia.
  rewrite IH by lia. reflexivity.
Qed.

Lemma decodeFound_app_r (pre post : Buffer) :
  decodeFound (pre ++ post) (buflen pre) = decodeFound post 0.
Proof.
  unfold decodeFound.
  rewrite (readUInt8_app_r pre post (buflen pre + 5) (0 + 5)) by lia.
  rewrite (readUInt16BE_app_r pre post (buflen pre + 6) (0 + 6)) by lia.
  rewrite ipBytesFrom_app_r by lia. reflexivity.
Qed.

Lemma u16_value v :
  0 <= v <= 65535 ->
  byteVal (byteOf (v / 256)) * 2 ^ 8 + byteVal (byteOf (v mod 256)) = v.
Proof.
  intros Hv.
  pose proof (Z.mod_pos_bound v 256 ltac:(lia)).
  assert (0 <= v / 256 <= 255).
  { split; [apply Z.div_pos; lia|]. apply Z.lt_succ_r. apply Z.div_lt_upper_bound; lia. }
  rewrite !byteVal_byteOf by lia.
  change (2 ^ 8) with 256. pose proof (Z.div_mod v 256 ltac:(lia)). lia.
Qed.

Lemma readUInt16BE_u16be v (rest : Buffer) :
  0 <= v <= 65535 -> readUInt16BE (u16be v ++ rest) 0 = Ok v.
Proof.
  intros Hv. change (readUInt16BE (u16be v ++ rest) 0)
    with (@Ok Z (byteVal (byteOf (v / 256)) * 2 ^ 8 + byteVal (byteOf (v mod 256)))).
  rewrite u16_value by exact Hv. reflexivity.
Qed.

Lemma readAttrHeader_encoded t l (rest : Buffer) :
  0 <= t <= 65535 -> 0 <= l <= 65535 ->
  readAttrHeader (u16be t ++ u16be l ++ rest) 0 = Ok (t, l).
Proof.
  intros Ht Hl. unfold readAttrHeader.
  rewrite readUInt16BE_u16be by exact Ht. cbn [bind].
  rewrite (readUInt16BE_app_r (u16be t) (u16be l ++ rest) (0 + 2) 0)
    by (try reflexivity; lia).
  rewrite readUInt16BE_u16be by exact Hl. reflexivity.
Qed.

Lemma buflen_repeat (x : byte) n : buflen (repeat x n) = Z.of_nat n.
Proof. unfold buflen. rewrite repeat_length. reflexivity. Qed.

Lemma padding_padCount l : 0 <= l -> padding l = padCount l.
Proof.
  intros Hl. unfold padding, padCount. rewrite Z.rem_mod_nonneg by lia.
  pose proof (Z.mod_pos_bound l 4 ltac:(lia)).
  destruct (Z.eqb_spec (l mod 4) 0) as [E|E]; cbn [negb]; cbv iota.
  - rewrite E. reflexivity.
  - rewrite (Z.mod_small (4 - l mod 4)); lia.
Qed.

Lemma padding_rounds_up l : 0 <= l -> (l + padding l) mod 4 = 0.
Proof.
  intros Hl. unfold padding. rewrite Z.rem_mod_nonneg by lia.
  pose proof (Z.mod_pos_bound l 4 ltac:(lia)).
  pose proof (Z.div_mod l 4 ltac:(lia)) as Hdm.
  destruct (Z.eqb_spec (l mod 4) 0) as [E|E]; cbn [negb]; cbv iota.
  - rewrite Z.add_0_r. exact E.
  - replace (l + (4 - l mod 4)) with ((l / 4 + 1) * 4) by lia.
    apply Z.mod_mul. lia.
Qed.

Lemma buflen_encodeAttribute a :
  buflen (encodeAttribute a)
  = 4 + buflen (attrValue a) + padding (buflen (attrValue a)).
Proof.
  unfold encodeAttribute. rewrite !buflen_app.
  pose proof (padding_range (buflen (attrValue a)) (buflen_nonneg _)).
  rewrite <- padding_padCount by apply buflen_nonneg.
  rewrite buflen_repeat.
  change (buflen (u16be (attrType a))) with 2.
  change (buflen (u16be (buflen (attrValue a)))) with 2. lia.
Qed.

(** From the first octet of a well-formed attribute of another type, the walk
    moves to the first octet after its padding. *)
Lemma walk_skip_attribute (pre rest : Buffer) a :
  unrelated a ->
  walk (pre ++ encodeAttribute a ++ rest) (buflen pre)
  = walk (pre ++ encodeAttribute a ++ rest)
         (buflen pre + buflen (encodeAttribute a)).
Proof.
  intros (Ht & Hne & Hl).
  pose proof (buflen_nonneg (attrValue a)).
  pose proof (padding_range (buflen (attrValue a)) ltac:(lia)).
  rewrite walk_unfold at 1.
  rewrite (readAttrHeader_app_r pre _ (buflen pre) eq_refl).
  unfold encodeAttribute at 2. rewrite <- !app_assoc.
  rewrite readAttrHeader_encoded by lia.
  rewrite !buflen_app, buflen_encodeAttribute.
  pose proof (buflen_nonneg rest).
  destruct (Z.ltb_spec (buflen pre)
              (buflen pre + (4 + buflen (attrValue a)
                             + padding (buflen (attrValue a)) + buflen rest)));
    [|lia].
  destruct (Z.eqb_spec (attrType a) XOR_MAPPED_ADDRESS_TYPE); [contradiction|].
  unfold nextOffset. reflexivity.
Qed.

Lemma walk_skip_attributes (before : list attribute) (rest : Buffer) :
  Forall unrelated before ->
  forall pre,
    walk (pre ++ encodeAttributes before ++ rest) (buflen pre)
    = walk (pre ++ encodeAttributes before ++ rest)
           (buflen pre + buflen (encodeAttributes before)).
Proof.
  induction 1 as [|a before Ha _ IH]; intros pre.
  - change (buflen (encodeAttributes [])) with 0. rewrite Z.add_0_r. reflexivity.
  - unfold encodeAttributes in *. cbn [map List.concat].
    rewrite <- !app_assoc.
    rewrite (walk_skip_attribute pre _ a Ha).
    specialize (IH (pre ++ encodeAttribute a)).
    rewrite <- !app_assoc in IH. rewrite buflen_app in IH. rewrite IH.
    f_equal. rewrite buflen_app. lia.
Qed.

Lemma decodeFound_xorMappedAddress a b c d p (after : Buffer) :
  0 <= a <= 255 -> 0 <= b <= 255 -> 0 <= c <= 255 -> 0 <= d <= 255 ->
  0 <= p <= 65535 ->
  decodeFound (xorMappedAddressAttr a b c d p ++ after) 0
  = Ok {| ip := dottedQuad a b c d; port := p |}.
Proof.
  intros Ha Hb Hc Hd Hp.
  pose proof (magicOctet_range 0). pose proof (magicOctet_range 1).
  pose proof (magicOctet_range 2). pose proof (magicOctet_range 3).
  pose proof (lxor_bound 8 a (magicOctet 0)). pose proof (lxor_bound 8 b (magicOctet 1)).
  pose proof (lxor_bound 8 c (magicOctet 2)). pose proof (lxor_bound 8 d (magicOctet 3)).
  pose proof (lxor_bound 16 p (MAGIC_COOKIE / 2 ^ 16)) as Hxp.
  change (MAGIC_COOKIE / 2 ^ 16) with 0x2112 in *.
  change (2 ^ 8) with 256 in *. change (2 ^ 16) with 65536 in *.
  set (xp := Z.lxor p 0x2112) in *.
  set (xa := Z.lxor a (magicOctet 0)) in *. set (xb := Z.lxor b (magicOctet 1)) in *.
  set (xc := Z.lxor c (magicOctet 2)) in *. set (xd := Z.lxor d (magicOctet 3)) in *.
  change (decodeFound (xorMappedAddressAttr a b c d p ++ after) 0)
    with (@Ok ResolvedAddress
            {| ip := JS.join "."
                       (map JS.numToString
                          [JS.xor (byteVal (byteOf xa))
                             (JS.and (JS.ushr MAGIC_COOKIE (24 - 0 * 8)) 0xFF);
                           JS.xor (byteVal (byteOf xb))
                             (JS.and (JS.ushr MAGIC_COOKIE (24 - (0 + 1) * 8)) 0xFF);
                           JS.xor (byteVal (byteOf xc))
                             (JS.and (JS.ushr MAGIC_COOKIE (24 - (0 + 1 + 1) * 8)) 0xFF);
                           JS.xor (byteVal (byteOf xd))
                             (JS.and (JS.ushr MAGIC_COOKIE (24 - (0 + 1 + 1 + 1) * 8)) 0xFF)]);
               port := JS.xor (byteVal (byteOf (xp / 256)) * 2 ^ 8
                               + byteVal (byteOf (xp mod 256)))
                         (JS.ushr MAGIC_COOKIE 16) |}).
  rewrite u16_value by lia. rewrite !byteVal_byteOf by lia.
  rewrite magic_high, !magic_byte by lia.
  change (0 + 1 + 1 + 1) with 3. change (0 + 1 + 1) with 2. change (0 + 1) with 1.
  rewrite (xor_small 16 xp), (xor_small 8 xa), (xor_small 8 xb),
    (xor_small 8 xc), (xor_small 8 xd);
    try (change (2 ^ 8) with 256; lia); try (change (2 ^ 16) with 65536; lia); try lia.
  subst xp xa xb xc xd.
  rewrite !Z.lxor_assoc, !Z.lxor_nilpotent, !Z.lxor_0_r. reflexivity.
Qed.

Lemma buflen_responseHeader n (transactionId : Buffer) :
  List.length transactionId = 12%nat -> buflen (responseHeader n transactionId) = 20.
Proof.
  intros H. unfold responseHeader, buflen. rewrite !List.length_app, H. reflexivity.
Qed.

Lemma walk_xorMappedAddress (pre after : Buffer) a b c d p :
  0 <= a <= 255 -> 0 <= b <= 255 -> 0 <= c <= 255 -> 0 <= d <= 255 ->
  0 <= p <= 65535 ->
  walk (pre ++ xorMappedAddressAttr a b c d p ++ after) (buflen pre)
  = Ok {| ip := dottedQuad a b c d; port := p |}.
Proof.
  intros Ha Hb Hc Hd Hp. rewrite walk_unfold.
  rewrite !buflen_app. pose proof (buflen_nonneg after).
  change (buflen (xorMappedAddressAttr a b c d p)) with 12.
  destruct (Z.ltb_spec (buflen pre) (buflen pre + (12 + buflen after))); [|lia].
  rewrite (readAttrHeader_app_r pre _ (buflen pre) eq_refl).
  unfold xorMappedAddressAttr at 1. rewrite <- !app_assoc.
  rewrite readAttrHeader_encoded by (unfold XOR_MAPPED_ADDRESS_TYPE; lia).
  rewrite Z.eqb_refl.
  rewrite decodeFound_app_r. apply decodeFound_xorMappedAddress; assumption.
Qed.

Lemma decodeResponse_bindingResponse transactionId before a b c d p after :
  List.length transactionId = 12%nat ->
  Forall unrelated before ->
  0 <= a <= 255 -> 0 <= b <= 255 -> 0 <= c <= 255 -> 0 <= d <= 255 ->
  0 <= p <= 65535 ->
  decodeResponse (bindingResponse transactionId before a b c d p after)
  = Ok {| ip := dottedQuad a b c d; port := p |}.
Proof.
  intros Hid Hbefore Ha Hb Hc Hd Hp.
  unfold bindingResponse, decodeResponse, decodeXorAddress.
  set (body := encodeAttributes before ++ xorMappedAddressAttr a b c d p ++ after).
  set (header := responseHeader (buflen body) transactionId).
  assert (Hlen : buflen header = 20) by (apply buflen_responseHeader; exact Hid).
  assert (Htype : readUInt16BE (header ++ body) 0 = Ok BINDING_RESPONSE_TYPE).
  { unfold header, responseHeader. rewrite <- !app_assoc.
    apply readUInt16BE_u16be. unfold BINDING_RESPONSE_TYPE. lia. }
  rewrite Htype. cbn [bind]. rewrite Z.eqb_refl. cbn [negb].
  rewrite <- Hlen. unfold body.
  rewrite (walk_skip_attributes before _ Hbefore header).
  rewrite <- buflen_app. rewrite app_assoc.
  apply walk_xorMappedAddress; assumption.
Qed.

(** The reads throw nothing but [RangeError]. *)
Lemma readUInt8_throws msg offset e :
  readUInt8 msg offset = Throw e -> e = RangeError.
Proof.
  unfold readUInt8. destruct (offset <? 0); [congruence|].
  destruct (nth_error msg (Z.to_nat offset)); congruence.
Qed.

Lemma readUInt16BE_throws msg offset e :
  readUInt16BE msg offset = Throw e -> e = RangeError.
Proof.
  unfold readUInt16BE, bind.
  destruct (readUInt8 msg offset) eqn:E1; [|intros [= <-]; eauto using readUInt8_throws].
  destruct (readUInt8 msg (offset + 1)) eqn:E2; [discriminate|].
  intros [= <-]; eauto using readUInt8_throws.
Qed.

Lemma readAttrHeader_throws msg offset e :
  readAttrHeader msg offset = Throw e -> e = RangeError.
Proof.
  unfold readAttrHeader, bind.
  destruct (readUInt16BE msg offset) eqn:E1;
    [|intros [= <-]; eauto using readUInt16BE_throws].
  destruct (readUInt16BE msg (offset + 2)) eqn:E2; [discriminate|].
  intros [= <-]; eauto using readUInt16BE_throws.
Qed.

Lemma ipBytesFrom_throws msg offset n :
  forall i e, ipBytesFrom msg offset i n = Throw e -> e = RangeError.
Proof.
  induction n as [|n IH]; intros i e; cbn [ipBytesFrom]; [discriminate|].
  unfold bind.
  destruct (readUInt8 msg (offset + 8 + i)) eqn:E1;
    [|intros [= <-]; eauto using readUInt8_throws].
  destruct (ipBytesFrom msg offset (i + 1) n) eqn:E2; [discriminate|].
  intros [= <-]. eapply IH. exact E2.
Qed.

Lemma decodeFound_throws msg offset e :
  decodeFound msg offset = Throw e -> e = RangeError.
Proof.
  unfold decodeFound, bind.
  destruct (readUInt8 msg (offset + 5)) eqn:E1;
    [|intros [= <-]; eauto using readUInt8_throws].
  destruct (readUInt16BE msg (offset + 6)) eqn:E2;
    [|intros [= <-]; eauto using readUInt16BE_throws].
  destruct (ipBytesFrom msg offset 0 4) eqn:E3; [discriminate|].
  intros [= <-]; eauto using ipBytesFrom_throws.
Qed.

Lemma walk_reaches msg offset offset' :
  reaches msg offset offset' -> walk msg offset = walk msg offset'.
Proof.
  induction 1 as [|offset t l offset' Hlt Hhdr Hne _ IH]; [reflexivity|].
  rewrite walk_unfold, Hhdr.
  destruct (Z.ltb_spec offset (buflen msg)); [|lia].
  destruct (Z.eqb_spec t XOR_MAPPED_ADDRESS_TYPE); [contradiction|]. exact IH.
Qed.

(** Where the walk ends, and what the loop returns or throws there. *)
Lemma walk_result msg :
  forall offset,
  exists offset',
    reaches msg offset offset' /\
    ((buflen msg <= offset' /\ walk msg offset = Throw NoXorMappedAddress)
     \/ (offset' < buflen msg /\ readAttrHeader msg offset' = Throw RangeError
         /\ walk msg offset = Throw RangeError)
     \/ (offset' < buflen msg
         /\ (exists l, readAttrHeader msg offset' = Ok (XOR_MAPPED_ADDRESS_TYPE, l))
         /\ walk msg offset = decodeFound msg offset')).
Proof.
  apply (walk_induction msg). intros offset IH.
  rewrite walk_unfold.
  destruct (Z.ltb_spec offset (buflen msg)) as [Hlt|Hge].
  - destruct (readAttrHeader msg offset) as [[t l]|e] eqn:Hhdr.
    + destruct (Z.eqb_spec t XOR_MAPPED_ADDRESS_TYPE) as [->|Hne].
      * exists offset. split; [constructor|]. right. right. eauto.
      * destruct (IH t l Hlt eq_refl Hne) as (offset' & Hr & Hres).
        exists offset'. split; [|exact Hres].
        eapply reaches_skip; eassumption.
    + pose proof (readAttrHeader_throws _ _ _ Hhdr) as ->.
      exists offset. split; [constructor|]. right. left. auto.
  - exists offset. split; [constructor|]. left. auto.
Qed.

(** C3.  Round trip: a Binding Response whose XOR-MAPPED-ADDRESS attribute
    carries four IPv4 octets and a 16-bit port, each masked with the magic
    constant as the specification says, decodes to the dotted quad of those
    octets and to that port, whatever well-formed attributes of other types
    come before it and whatever octets come after it. *)
Theorem xor_mapped_address_roundtrip transactionId before a b c d p after :
  List.length transactionId = 12%nat ->
  Forall unrelated before ->
  0 <= a <= 255 -> 0 <= b <= 255 -> 0 <= c <= 255 -> 0 <= d <= 255 ->
  0 <= p <= 65535 ->
  decodeResponse (bindingResponse transactionId before a b c d p after)
  = Ok {| ip := dottedQuad a b c d; port := p |}.
Proof. apply decodeResponse_bindingResponse. Qed.

Lemma xor_mapped_address_roundtrip_witness :
  decodeResponse (bindingResponse sampleTransactionId [] 203 0 113 7 65535 [])
  = Ok {| ip := "203.0.113.7"; port := 65535 |}.
Proof.
  apply (xor_mapped_address_roundtrip sampleTransactionId [] 203 0 113 7 65535 []);
    [reflexivity | constructor | lia | lia | lia | lia | lia].
Defined.

(** C4.  The walk adds to the offset the four octets of the attribute header,
    the declared length, and the padding that brings the length to the next
    multiple of four; so from the first octet of a well-formed attribute of
    another type it comes to the first octet after that attribute, and a
    response with an attribute of odd length before XOR-MAPPED-ADDRESS decodes
    to the address and port that XOR-MAPPED-ADDRESS carries. *)
Theorem attribute_walk_honours_padding :
  (forall offset l,
      0 <= l ->
      nextOffset offset l = offset + 4 + l + padding l
      /\ padding l = padCount l
      /\ 0 <= padding l < 4
      /\ (l + padding l) mod 4 = 0)
  /\ (forall (pre rest : Buffer) x,
        unrelated x ->
        walk (pre ++ encodeAttribute x ++ rest) (buflen pre)
        = walk (pre ++ encodeAttribute x ++ rest)
               (buflen pre + buflen (encodeAttribute x)))
  /\ (forall transactionId x a b c d p after,
        List.length transactionId = 12%nat ->
        unrelated x ->
        Z.odd (buflen (attrValue x)) = true ->
        0 <= a <= 255 -> 0 <= b <= 255 -> 0 <= c <= 255 -> 0 <= d <= 255 ->
        0 <= p <= 65535 ->
        decodeResponse (bindingResponse transactionId [x] a b c d p after)
        = Ok {| ip := dottedQuad a b c d; port := p |}).
Proof.
  split; [|split].
  - intros offset l Hl. split; [unfold nextOffset; lia|].
    split; [apply padding_padCount; exact Hl|].
    split; [apply padding_range; exact Hl|apply padding_rounds_up; exact Hl].
  - intros pre rest x Hx. apply walk_skip_attribute. exact Hx.
  - intros transactionId x a b c d p after Hid Hx _ Ha Hb Hc Hd Hp.
    apply decodeResponse_bindingResponse; auto.
Qed.

Lemma attribute_walk_honours_padding_witness :
  padding 3 = 1
  /\ decodeResponse sampleResponse = Ok {| ip := "192.0.2.1"; port := 54321 |}.
Proof.
  destruct attribute_walk_honours_padding as (Hpad & _ & Hdecode).
  split.
  - destruct (Hpad 20 3 ltac:(lia)) as (_ & -> & _). reflexivity.
  - apply (Hdecode sampleTransactionId softwareAttr 192 0 2 1 54321 []);
      [reflexivity | | reflexivity | lia | lia | lia | lia | lia].
    unfold unrelated, softwareAttr, XOR_MAPPED_ADDRESS_TYPE, buflen.
    cbn [attrType attrValue List.length]. lia.
Defined.

(** C9.  Whenever decoding succeeds, the port is an integer between 0 and
    65535 and the ip is the dotted quad of four integers between 0 and 255. *)
Theorem decodeResponse_ranges msg r :
  decodeResponse msg = Ok r ->
  0 <= port r <= 65535
  /\ exists a b c d,
       0 <= a <= 255 /\ 0 <= b <= 255 /\ 0 <= c <= 255 /\ 0 <= d <= 255
       /\ ip r = dottedQuad a b c d.
Proof.
  unfold decodeResponse, decodeXorAddress, bind. intros H.
  destruct (readUInt16BE msg 0) as [t|]; [|discriminate].
  destruct (negb (t =? BINDING_RESPONSE_TYPE)); [discriminate|].
  apply walk_ok_found in H. destruct H as (offset & H).
  apply decodeFound_inv in H.
  destruct H as (xPort & e0 & e1 & e2 & e3 & Hp & H0 & H1 & H2 & H3 & ->).
  apply readUInt16BE_range in Hp. apply readUInt8_range in H0, H1, H2, H3.
  pose proof (magicOctet_range 0). pose proof (magicOctet_range 1).
  pose proof (magicOctet_range 2). pose proof (magicOctet_range 3).
  pose proof (lxor_bound 16 xPort 0x2112) as Hxp.
  pose proof (lxor_bound 8 e0 (magicOctet 0)). pose proof (lxor_bound 8 e1 (magicOctet 1)).
  pose proof (lxor_bound 8 e2 (magicOctet 2)). pose proof (lxor_bound 8 e3 (magicOctet 3)).
  change (2 ^ 8) with 256 in *. change (2 ^ 16) with 65536 in *.
  cbn [port ip]. split; [lia|].
  exists (Z.lxor e0 (magicOctet 0)), (Z.lxor e1 (magicOctet 1)),
    (Z.lxor e2 (magicOctet 2)), (Z.lxor e3 (magicOctet 3)).
  repeat (split; [lia|]). reflexivity.
Qed.

Lemma decodeResponse_ranges_witness :
  0 <= 54321 <= 65535
  /\ exists a b c d,
       0 <= a <= 255 /\ 0 <= b <= 255 /\ 0 <= c <= 255 /\ 0 <= d <= 255
       /\ "192.0.2.1"%string = dottedQuad a b c d.
Proof.
  apply (decodeResponse_ranges sampleResponse {| ip := "192.0.2.1"; port := 54321 |}).
  vm_compute. reflexivity.
Defined.

Lemma decodeResponse_valid_type msg :
  readUInt16BE msg 0 = Ok BINDING_RESPONSE_TYPE ->
  decodeResponse msg = walk msg 20.
Proof. unfold decodeResponse, decodeXorAddress. intros ->. reflexivity. Qed.

Lemma walk_exhausted_iff msg :
  walk msg 20 = Throw NoXorMappedAddress <-> exhausted msg.
Proof.
  split.
  - intros Hw. destruct (walk_result msg 20) as (o & Hr & [(Hge & _) | [H | H]]).
    + exists o. auto.
    + destruct H as (_ & _ & H). congruence.
    + destruct H as (_ & _ & H). rewrite Hw in H. symmetry in H.
      apply decodeFound_throws in H. discriminate.
  - intros (o & Hr & Hge). rewrite (walk_reaches _ _ _ Hr), walk_unfold.
    destruct (Z.ltb_spec o (buflen msg)); [lia|reflexivity].
Qed.

Lemma walk_overrun_iff msg :
  walk msg 20 = Throw RangeError <-> overrun msg.
Proof.
  split.
  - intros Hw. destruct (walk_result msg 20) as (o & Hr & [H | [H | H]]).
    + destruct H as (_ & H). congruence.
    + destruct H as (Hlt & Hhdr & _). exists o. auto.
    + destruct H as (Hlt & Hhdr & H). exists o. rewrite Hw in H. auto.
  - intros (o & Hr & Hlt & H). rewrite (walk_reaches _ _ _ Hr), walk_unfold.
    destruct (Z.ltb_spec o (buflen msg)); [|lia].
    destruct H as [-> | ((l & ->) & H)]; [reflexivity|].
    rewrite Z.eqb_refl. exact H.
Qed.

(** C6, as the code has it.  Decoding throws 'Invalid STUN response' exactly
    when the leading 16-bit field can be read and is not 0x0101; it throws
    'No XOR-MAPPED-ADDRESS found' exactly when the leading field is 0x0101 and
    the walk runs off the end of the buffer; it throws a RangeError exactly
    when a read goes past the end of the buffer (the leading field, an
    attribute header, or the value of XOR-MAPPED-ADDRESS); and in every other
    case it returns an address. *)
Theorem decodeResponse_outcomes msg :
  (decodeResponse msg = Throw InvalidStunResponse
   <-> exists t, readUInt16BE msg 0 = Ok t /\ t <> BINDING_RESPONSE_TYPE)
  /\ (decodeResponse msg = Throw NoXorMappedAddress
      <-> readUInt16BE msg 0 = Ok BINDING_RESPONSE_TYPE /\ exhausted msg)
  /\ (decodeResponse msg = Throw RangeError
      <-> readUInt16BE msg 0 = Throw RangeError
          \/ (readUInt16BE msg 0 = Ok BINDING_RESPONSE_TYPE /\ overrun msg))
  /\ ((exists r, decodeResponse msg = Ok r)
      \/ decodeResponse msg = Throw InvalidStunResponse
      \/ decodeResponse msg = Throw NoXorMappedAddress
      \/ decodeResponse msg = Throw RangeError).
Proof.
  destruct (readUInt16BE msg 0) as [t|e] eqn:Ht.
  - destruct (Z.eqb_spec t BINDING_RESPONSE_TYPE) as [->|Hne].
    + rewrite (decodeResponse_valid_type msg Ht).
      pose proof (walk_exhausted_iff msg) as Hex.
      pose proof (walk_overrun_iff msg) as Hov.
      split; [|split; [|split]].
      * split.
        -- intros Hw. destruct (walk_result msg 20) as (o & _ & [H | [H | H]]).
           ++ destruct H as (_ & H). congruence.
           ++ destruct H as (_ & _ & H). congruence.
           ++ destruct H as (_ & _ & H). rewrite Hw in H. symmetry in H.
              apply decodeFound_throws in H. discriminate.
        -- intros (t' & [= <-] & Hne). contradiction.
      * tauto.
      * split; [tauto|]. intros [H | H]; [discriminate|tauto].
      * destruct (walk_result msg 20) as (o & _ & [H | [H | H]]).
        -- destruct H as (_ & ->). right. right. left. reflexivity.
        -- destruct H as (_ & _ & ->). right. right. right. reflexivity.
        -- destruct H as (_ & _ & ->).
           destruct (decodeFound msg o) as [r|e] eqn:Hf; [left; exists r; reflexivity|].
           apply decodeFound_throws in Hf. subst e. right. right. right. reflexivity.
    + assert (Hd : decodeResponse msg = Throw InvalidStunResponse).
      { unfold decodeResponse. rewrite Ht. cbn [bind].
        destruct (Z.eqb_spec t BINDING_RESPONSE_TYPE); [contradiction|reflexivity]. }
      rewrite Hd. split; [|split; [|split]].
      * split; eauto.
      * split; [discriminate|]. intros ([= ->] & _). contradiction.
      * split; [discriminate|]. intros [H | ([= ->] & _)]; [discriminate|contradiction].
      * auto.
  - pose proof (readUInt16BE_throws _ _ _ Ht) as ->.
    assert (Hd : decodeResponse msg = Throw RangeError).
    { unfold decodeResponse. rewrite Ht. reflexivity. }
    rewrite Hd. split; [|split; [|split]].
    + split; [discriminate|]. intros (t & [=] & _).
    + split; [discriminate|]. intros ([=] & _).
    + split; auto.
    + auto.
Qed.

(** C6 as stated fails: on a response cut off inside the value of
    XOR-MAPPED-ADDRESS the leading field is 0x0101 and the walk finds the
    attribute, so neither failure of the claim applies, and yet no address is
    returned. *)
Lemma decodeResponse_truncated_no_address :
  readUInt16BE truncatedResponse 0 = Ok BINDING_RESPONSE_TYPE
  /\ readAttrHeader truncatedResponse 20 = Ok (XOR_MAPPED_ADDRESS_TYPE, 8)
  /\ ~ exhausted truncatedResponse
  /\ ~ (exists r, decodeResponse truncatedResponse = Ok r).
Proof.
  split; [reflexivity|]. split; [reflexivity|]. split.
  - intros (o & Hr & Hge). inversion Hr as [|? t l ? Hlt Hhdr Hne _]; subst.
    + unfold buflen in Hge. cbn in Hge. lia.
    + cbv in Hhdr. injection Hhdr as <- <-. apply Hne. reflexivity.
  - intros (r & Hr). vm_compute in Hr. discriminate.
Qed.

Lemma outcomeOf_settled c : outcomeOf c <> Pending.
Proof.
  destruct c as [m|err|responseMsg|]; cbn; try discriminate.
  destruct (decodeResponse responseMsg); discriminate.
Qed.

Lemma run1_terminal c : terminal c = true -> run1 c started = completed c.
Proof.
  unfold completed.
  destruct c as [m|[|]|responseMsg|]; cbn; try reflexivity; try discriminate.
  intros _. destruct (decodeResponse responseMsg); reflexivity.
Qed.

Lemma run1_not_terminal c t : terminal c = false -> run1 c t = t.
Proof. destruct c as [m|[|]|responseMsg|]; cbn; try discriminate. reflexivity. Qed.

(** Once the socket is closed and the promise settled, no callback changes
    anything. *)
Lemma run1_after_completion c t :
  isClosed t = true -> settled t <> Pending -> run1 c t = t.
Proof.
  intros Hc Hs. destruct t as [cl n pr]. cbn in Hc, Hs. subst cl.
  destruct pr as [|v|r]; [contradiction| |];
    destruct c as [m|[|]|responseMsg|]; cbn; try reflexivity;
    destruct (decodeResponse responseMsg); reflexivity.
Qed.

Lemma run_after_completion cs :
  forall t, isClosed t = true -> settled t <> Pending -> run cs t = t.
Proof.
  induction cs as [|c cs IH]; intros t Hc Hs; [reflexivity|].
  unfold run in *. cbn [fold_left]. rewrite run1_after_completion by assumption.
  apply IH; assumption.
Qed.

(** C5.  Of the callbacks that run in a transaction, the first terminal one
    (a response, the timeout, or a socket error) decides how the promise
    settles and closes the socket, by the one call of [socket.close()] that is
    ever made; every callback that runs after it changes nothing.  Before any
    terminal callback the socket is open and the promise pending. *)
Theorem transaction_completes_once (cs : list callback) :
  match List.find terminal cs with
  | Some c =>
      run cs started = completed c
      /\ closeCalls (run cs started) = 1%nat
      /\ forall c', run1 c' (run cs started) = run cs started
  | None => run cs started = started
  end.
Proof.
  induction cs as [|c cs IH]; [reflexivity|].
  cbn [List.find]. destruct (terminal c) eqn:Hc.
  - assert (Hrun : run (c :: cs) started = completed c).
    { unfold run. cbn [fold_left]. rewrite run1_terminal by exact Hc.
      apply (run_after_completion cs); [reflexivity|apply outcomeOf_settled]. }
    rewrite Hrun. split; [reflexivity|]. split; [reflexivity|].
    intros c'. apply run1_after_completion; [reflexivity|apply outcomeOf_settled].
  - replace (run (c :: cs) started) with (run cs started); [exact IH|].
    unfold run. cbn [fold_left]. rewrite run1_not_terminal by exact Hc. reflexivity.
Qed.

End StunFacts.

Module RelayFacts.
Import Relay.

(** [createRoomId] returns ids of 25 characters. *)
Lemma substring_0_length n :
  forall s, n <= String.length s -> String.length (substring 0 n s) = n.
Proof.
  induction n as [|n IH]; intros s Hs.
  - destruct s; reflexivity.
  - destruct s as [|c s]; cbn in *; [lia|]. rewrite IH; lia.
Qed.

Lemma extendCode_length draws :
  forall code c, extendCode code draws = Some c -> 25 <= String.length c.
Proof.
  induction draws as [|r rest IH]; intros code c; cbn [extendCode];
    destruct (Nat.ltb_spec (String.length code) 25); try discriminate.
  - intros [= <-]. assumption.
  - apply IH.
  - intros [= <-]. assumption.
Qed.

Lemma createRoomId_length draws newRoomId :
  createRoomId draws = Some newRoomId -> String.length newRoomId = 25.
Proof.
  unfold createRoomId. destruct draws as [|r rest]; [discriminate|].
  destruct (extendCode (substring 2 25 r) rest) as [code|] eqn:E; [|discriminate].
  intros [= <-]. apply substring_0_length. eapply extendCode_length. exact E.
Qed.

Example createRoomId_sample :
  createRoomId ["0.k3j9x0q2m7c"; "0.1v8b4n6z5a0"; "0.s1dzzzzzzzz"] = Some roomA.
Proof. reflexivity. Qed.

(** A key of 25 characters is not a member of [Object.prototype], and is not
    the key that an absent [roomId] is converted to. *)
Lemma generated_key_not_inherited key :
  String.length key = 25 -> bool_decide (key ∈ objectPrototypeKeys) = false.
Proof.
  intros Hlen. apply bool_decide_eq_false. intros Hin.
  unfold objectPrototypeKeys in Hin.
  repeat (apply elem_of_cons in Hin as [-> | Hin]; [discriminate Hlen|]).
  apply elem_of_nil in Hin. exact Hin.
Qed.

Lemma get_undefined_key st :
  generatedKeys st -> get (rooms st) "undefined" = Undefined.
Proof.
  intros Hkeys. unfold get.
  destruct (rooms st !! "undefined") as [l|] eqn:E; [|reflexivity].
  apply Hkeys in E. discriminate E.
Qed.

Lemma isType_inj d t1 t2 : isType d t1 = true -> t1 <> t2 -> isType d t2 = false.
Proof.
  unfold isType. intros H1 Hne. apply bool_decide_eq_true in H1.
  apply bool_decide_eq_false. congruence.
Qed.

Lemma isNegotiation_other d :
  isNegotiation d = true ->
  isType d "create-room" = false /\ isType d "join-room" = false.
Proof.
  unfold isNegotiation. intros H.
  apply orb_true_iff in H as [H | H]; [apply orb_true_iff in H as [H | H]|];
    split; apply (isType_inj d _ _ H); discriminate.
Qed.

Lemma onMessage_negotiation newRoomId isOpen ws d st :
  isNegotiation d = true ->
  onMessage newRoomId isOpen ws d st = relayBranch isOpen ws d st.
Proof.
  intros H. destruct (isNegotiation_other d H) as (Hc & Hj).
  unfold onMessage. unfold isNegotiation in H. rewrite Hc, Hj, H.
  unfold andThen, skip. cbn.
  destruct (relayBranch isOpen ws d st) as [a s t]. reflexivity.
Qed.

Lemma onMessage_join newRoomId isOpen ws d st :
  isType d "join-room" = true ->
  onMessage newRoomId isOpen ws d st = joinRoomBranch isOpen ws d st.
Proof.
  intros H. unfold onMessage.
  rewrite (isType_inj d _ "create-room" H), (isType_inj d _ "webrtc-offer" H),
    (isType_inj d _ "webrtc-answer" H), (isType_inj d _ "webrtc-ice" H), H
    by discriminate.
  unfold andThen, skip. cbn.
  destruct (joinRoomBranch isOpen ws d st) as [a s [|]]; cbn; [reflexivity|].
  rewrite app_nil_r. reflexivity.
Qed.

Lemma onMessage_create newRoomId isOpen ws d st :
  isType d "create-room" = true ->
  onMessage newRoomId isOpen ws d st = createRoomBranch newRoomId ws st.
Proof.
  intros H. unfold onMessage.
  rewrite (isType_inj d _ "join-room" H), (isType_inj d _ "webrtc-offer" H),
    (isType_inj d _ "webrtc-answer" H), (isType_inj d _ "webrtc-ice" H), H
    by discriminate.
  reflexivity.
Qed.

Lemma onMessage_unrecognized newRoomId isOpen ws d st :
  unrecognized d = true -> onMessage newRoomId isOpen ws d st = skip st.
Proof.
  unfold unrecognized, isNegotiation. intros H. apply negb_true_iff in H.
  apply orb_false_iff in H as (H & Hn). apply orb_false_iff in H as (Hc & Hj).
  unfold onMessage. rewrite Hc, Hj, Hn. reflexivity.
Qed.

(** C10.  Handling a "webrtc-offer", "webrtc-answer" or "webrtc-ice" message
    leaves the registry as it was: the rooms, their lists and the [roomId] of
    every socket, whether the message names a room of the registry or not. *)
Theorem negotiation_leaves_registry newRoomId isOpen ws d st :
  isNegotiation d = true ->
  after (onMessage newRoomId isOpen ws d st) = st.
Proof.
  intros H. rewrite onMessage_negotiation by exact H.
  unfold relayBranch. destruct (get (rooms st) (toPropertyKey (roomId d))); reflexivity.
Qed.

Lemma negotiation_leaves_registry_witness :
  after (onMessage roomB allOpen 0%nat (iceMsg (Some roomA)) twoInRoomA) = twoInRoomA
  /\ sent (onMessage roomB allOpen 0%nat (iceMsg (Some roomA)) twoInRoomA)
     = [(1%nat, Forwarded (iceMsg (Some roomA)))].
Proof.
  split.
  - apply (negotiation_leaves_registry roomB allOpen 0%nat (iceMsg (Some roomA)) twoInRoomA).
    reflexivity.
  - vm_compute. reflexivity.
Defined.

(** C7, as the code has it.  In a registry whose room ids are generated ids,
    a message whose type is none of the five that the handler knows, and a
    negotiation message without roomId, make the relay send nothing and
    leave the registry unchanged; a "join-room" without roomId leaves the
    registry unchanged too, and is answered like a "join-room" for an unknown
    room: the sender, and nobody else, gets the error "Room not found". *)
Theorem malformed_messages newRoomId isOpen ws d st :
  generatedKeys st ->
  (unrecognized d = true ->
   onMessage newRoomId isOpen ws d st = skip st)
  /\ (isNegotiation d = true -> roomId d = None ->
      onMessage newRoomId isOpen ws d st = skip st)
  /\ (isType d "join-room" = true -> roomId d = None ->
      onMessage newRoomId isOpen ws d st
      = {| after := st; sent := [(ws, ErrorMessage "Room not found")];
           threw := false |}).
Proof.
  intros Hkeys. split; [|split].
  - apply onMessage_unrecognized.
  - intros Hn Hr. rewrite onMessage_negotiation by exact Hn.
    unfold relayBranch. rewrite Hr. cbn [toPropertyKey].
    rewrite get_undefined_key by exact Hkeys. reflexivity.
  - intros Hj Hr. rewrite onMessage_join by exact Hj.
    unfold joinRoomBranch. rewrite Hr. cbn [toPropertyKey].
    rewrite get_undefined_key by exact Hkeys. reflexivity.
Qed.

Lemma generatedKeys_twoInRoomA : generatedKeys twoInRoomA.
Proof.
  intros r l. change (rooms twoInRoomA) with (<[roomA := [0; 1]]> (∅ : gmap string (list conn))).
  intros H. apply lookup_insert_Some in H as [(<- & _) | (_ & H)]; [reflexivity|].
  rewrite lookup_empty in H. discriminate.
Qed.

Lemma malformed_messages_witness :
  onMessage roomB allOpen 1%nat (iceMsg None) twoInRoomA = skip twoInRoomA
  /\ sent (onMessage roomB allOpen 1%nat (joinRoomMsg None "bob") twoInRoomA)
     = [(1%nat, ErrorMessage "Room not found")].
Proof.
  destruct (malformed_messages roomB allOpen 1%nat (iceMsg None) twoInRoomA
              generatedKeys_twoInRoomA) as (_ & Hn & _).
  destruct (malformed_messages roomB allOpen 1%nat (joinRoomMsg None "bob") twoInRoomA
              generatedKeys_twoInRoomA) as (_ & _ & Hj).
  split.
  - apply Hn; reflexivity.
  - rewrite Hj; reflexivity.
Defined.

(** C7 as stated fails: a "join-room" without roomId is answered with an
    error notice. *)
Lemma join_without_roomId_is_answered :
  isType (joinRoomMsg None "bob") "join-room" = true
  /\ roomId (joinRoomMsg None "bob") = None
  /\ sent (onMessage roomB allOpen 1%nat (joinRoomMsg None "bob") twoInRoomA)
     = [(1%nat, ErrorMessage "Room not found")]
  /\ sent (onMessage roomB allOpen 1%nat (joinRoomMsg None "bob") twoInRoomA) <> [].
Proof.
  split; [reflexivity|]. split; [reflexivity|].
  assert (H : sent (onMessage roomB allOpen 1%nat (joinRoomMsg None "bob") twoInRoomA)
              = [(1%nat, ErrorMessage "Room not found")]) by (vm_compute; reflexivity).
  split; [exact H|]. rewrite H. discriminate.
Qed.

Lemma startTargets_app log1 log2 :
  startTargets (log1 ++ log2) = startTargets log1 ++ startTargets log2.
Proof. unfold startTargets. rewrite List.filter_app, List.map_app. reflexivity. Qed.

Lemma startTargets_notices (u : option string) (l : list conn) :
  startTargets (map (fun client => (client, UserJoined u)) l) = [].
Proof. induction l as [|c l IH]; [reflexivity|exact IH]. Qed.

(** C1, as the code has it.  For a "join-room" that names a room of the
    registry, "start-webrtc" is sent exactly when the participant count after
    the join is at least two, once, and to the first socket of the list; so it
    is sent again by every join that brings the count above two.  A
    "join-room" that finds no room sends no "start-webrtc". *)
Theorem start_webrtc_policy newRoomId isOpen ws d st :
  isType d "join-room" = true ->
  let o := onMessage newRoomId isOpen ws d st in
  match get (rooms st) (toPropertyKey (roomId d)) with
  | Participants l =>
      rooms (after o) !! toPropertyKey (roomId d) = Some (l ++ [ws])
      /\ startTargets (sent o)
         = if 2 <=? List.length (l ++ [ws]) then [List.hd ws (l ++ [ws])] else []
  | _ => startTargets (sent o) = []
  end.
Proof.
  intros Hj o. subst o. rewrite onMessage_join by exact Hj.
  unfold joinRoomBranch.
  destruct (get (rooms st) (toPropertyKey (roomId d))) as [l| |]; cbn [after sent rooms];
    [|reflexivity|reflexivity].
  split; [apply lookup_insert_eq|].
  rewrite startTargets_app, startTargets_notices. cbn [app].
  destruct (2 <=? List.length (l ++ [ws])); [|reflexivity].
  destruct l; reflexivity.
Qed.

Lemma start_webrtc_policy_witness :
  rooms (after (onMessage roomB allOpen 1%nat (joinRoomMsg (Some roomA) "bob")
                  (runEvents [Message roomA allOpen 0%nat createRoomMsg] initial)))
    !! roomA = Some [0; 1]
  /\ startTargets
       (sent (onMessage roomB allOpen 1%nat (joinRoomMsg (Some roomA) "bob")
                (runEvents [Message roomA allOpen 0%nat createRoomMsg] initial)))
     = [0].
Proof.
  apply (start_webrtc_policy roomB allOpen 1%nat (joinRoomMsg (Some roomA) "bob")
           (runEvents [Message roomA allOpen 0%nat createRoomMsg] initial)).
  reflexivity.
Defined.

(** C1 as stated fails: when socket 2 joins the room that sockets 0 and 1
    are in, the count after the join is three and socket 0 is sent
    "start-webrtc" again. *)
Lemma third_join_sends_start_webrtc :
  let o := onMessage roomB allOpen 2%nat (joinRoomMsg (Some roomA) "carol") twoInRoomA in
  rooms twoInRoomA !! roomA = Some [0; 1]
  /\ rooms (after o) !! roomA = Some [0; 1; 2]
  /\ sent o = [(0, UserJoined (Some "carol")); (1, UserJoined (Some "carol"));
               (2, UserJoined (Some "carol")); (0, StartWebrtc)]
  /\ startTargets (sent o) <> [].
Proof.
  cbv zeta. split; [vm_compute; reflexivity|]. split; [vm_compute; reflexivity|].
  split; [vm_compute; reflexivity|]. vm_compute. discriminate.
Qed.

(** The reply to a "join-room" whose key [rooms] neither owns nor inherits:
    the error goes to the sender only, and nothing changes. *)
Lemma join_unknown_room newRoomId isOpen ws d st :
  isType d "join-room" = true ->
  get (rooms st) (toPropertyKey (roomId d)) = Undefined ->
  onMessage newRoomId isOpen ws d st
  = {| after := st; sent := [(ws, ErrorMessage "Room not found")]; threw := false |}.
Proof.
  intros Hj Hg. rewrite onMessage_join by exact Hj.
  unfold joinRoomBranch. rewrite Hg. reflexivity.
Qed.

(** A "join-room" whose key [rooms] does not own but inherits: the handler
    throws before it sends or changes anything. *)
Lemma join_inherited_key newRoomId isOpen ws d st :
  isType d "join-room" = true ->
  rooms st !! toPropertyKey (roomId d) = None ->
  toPropertyKey (roomId d) ∈ objectPrototypeKeys ->
  onMessage newRoomId isOpen ws d st = {| after := st; sent := []; threw := true |}.
Proof.
  intros Hj Hnone Hin. rewrite onMessage_join by exact Hj.
  unfold joinRoomBranch, get. rewrite Hnone.
  rewrite bool_decide_eq_true_2 by exact Hin. reflexivity.
Qed.

(** C8.  A "join-room" for the id "constructor", which is not a room of the
    registry, gets no error reply: [rooms["constructor"]] is the function
    [Object] that [rooms] inherits, the test [if (rooms[roomId])] passes, and
    the call of [push] throws.  Nothing is sent. *)
Theorem join_constructor_throws :
  rooms initial !! "constructor" = None
  /\ onMessage roomB allOpen 1%nat (joinRoomMsg (Some "constructor") "bob") initial
     = {| after := initial; sent := []; threw := true |}.
Proof. split; reflexivity. Qed.

(** *** The registry along a run *)

Lemma get_participants (rs : gmap string (list conn)) key l :
  get rs key = Participants l <-> rs !! key = Some l.
Proof.
  unfold get. destruct (rs !! key) as [l'|].
  - split; congruence.
  - destruct (bool_decide (key ∈ objectPrototypeKeys)); split; discriminate.
Qed.

Lemma after_relayBranch isOpen ws d st : after (relayBranch isOpen ws d st) = st.
Proof.
  unfold relayBranch. destruct (get (rooms st) (toPropertyKey (roomId d))); reflexivity.
Qed.

(** The four ways a message is handled. *)
Lemma onMessage_cases newRoomId isOpen ws d st :
  (isType d "create-room" = true
   /\ onMessage newRoomId isOpen ws d st = createRoomBranch newRoomId ws st)
  \/ (isType d "create-room" = false /\ isType d "join-room" = true
      /\ onMessage newRoomId isOpen ws d st = joinRoomBranch isOpen ws d st)
  \/ (isType d "create-room" = false /\ isType d "join-room" = false
      /\ after (onMessage newRoomId isOpen ws d st) = st).
Proof.
  destruct (isType d "create-room") eqn:Hc.
  - left. split; [reflexivity|]. apply onMessage_create. exact Hc.
  - right. destruct (isType d "join-room") eqn:Hj.
    + left. split; [reflexivity|]. split; [reflexivity|]. apply onMessage_join. exact Hj.
    + right. split; [reflexivity|]. split; [reflexivity|].
      destruct (isNegotiation d) eqn:Hn.
      * rewrite onMessage_negotiation by exact Hn. apply after_relayBranch.
      * rewrite onMessage_unrecognized; [reflexivity|].
        unfold unrecognized. rewrite Hc, Hj, Hn. reflexivity.
Qed.

(** What [onClose] does to the rooms: nothing, or it filters one list and
    deletes the room if the list is then empty. *)
Lemma onClose_cases ws st :
  after (onClose ws st) = st
  \/ exists r l,
      rooms st !! r = Some l
      /\ wsRoomId (after (onClose ws st)) = wsRoomId st
      /\ let l' := List.filter (fun client => negb (client =? ws)) l in
         rooms (after (onClose ws st))
         = if List.length l' =? 0 then delete r (rooms st) else <[r := l']> (rooms st).
Proof.
  unfold onClose. destruct (wsRoomId st !! ws) as [r|]; [|left; reflexivity].
  destruct (truthy r); [|left; reflexivity].
  destruct (get (rooms st) r) as [l| |] eqn:Hg; [|left; reflexivity|left; reflexivity].
  right. exists r, l. apply get_participants in Hg.
  split; [exact Hg|]. split; reflexivity.
Qed.

Lemma noEmptyRoom_handle e st :
  noEmptyRoom st -> noEmptyRoom (after (handle e st)).
Proof.
  intros Hst. destruct e as [newRoomId isOpen ws d|ws]; cbn [handle].
  - destruct (onMessage_cases newRoomId isOpen ws d st)
      as [(_ & ->) | [(_ & _ & ->) | (_ & _ & ->)]]; [| |exact Hst].
    + intros r l. cbn [createRoomBranch after rooms]. intros H.
      apply lookup_insert_Some in H as [(_ & <-) | (_ & H)]; [discriminate|].
      eapply Hst. exact H.
    + unfold joinRoomBranch.
      destruct (get (rooms st) (toPropertyKey (roomId d))) as [l0| |];
        [|exact Hst|exact Hst].
      intros r l. cbn [after rooms]. intros H.
      apply lookup_insert_Some in H as [(_ & <-) | (_ & H)].
      * destruct l0; discriminate.
      * eapply Hst. exact H.
  - destruct (onClose_cases ws st) as [-> | (r0 & l0 & Hl0 & _ & Hrooms)]; [exact Hst|].
    cbv zeta in Hrooms. intros r l. rewrite Hrooms.
    destruct (Nat.eqb_spec (List.length (List.filter (fun client => negb (client =? ws)) l0)) 0)
      as [Hz|Hnz]; intros H.
    + apply lookup_delete_Some in H as (_ & H). eapply Hst. exact H.
    + apply lookup_insert_Some in H as [(_ & <-) | (_ & H)].
      * intros E. rewrite E in Hnz. apply Hnz. reflexivity.
      * eapply Hst. exact H.
Qed.

Lemma noEmptyRoom_run es :
  forall st, noEmptyRoom st -> noEmptyRoom (runEvents es st).
Proof.
  induction es as [|e es IH]; intros st Hst; [exact Hst|].
  unfold runEvents in *. cbn [fold_left]. apply IH. apply noEmptyRoom_handle. exact Hst.
Qed.

Lemma consistent_initial : consistent initial.
Proof.
  repeat split; intros r l; cbn [initial rooms]; rewrite lookup_empty; discriminate.
Qed.

Lemma not_member_without_roomId st ws :
  backReferences st -> wsRoomId st !! ws = None ->
  forall r l, rooms st !! r = Some l -> ~ List.In ws l.
Proof. intros Hb Hnone r l Hl Hin. rewrite (Hb r l ws Hl Hin) in Hnone. discriminate. Qed.

Lemma consistent_create newRoomId ws st :
  consistent st -> String.length newRoomId = 25 -> wsRoomId st !! ws = None ->
  consistent (after (createRoomBranch newRoomId ws st)).
Proof.
  intros (Hk & Hb & Hn) Hid Hnone.
  pose proof (not_member_without_roomId st ws Hb Hnone) as Hout.
  cbn [createRoomBranch after]. repeat split.
  - intros r l H. cbn [rooms] in H.
    apply lookup_insert_Some in H as [(<- & _) | (_ & H)]; [exact Hid|].
    eapply Hk. exact H.
  - intros r l ws' H Hin. cbn [rooms wsRoomId] in *.
    apply lookup_insert_Some in H as [(<- & <-) | (Hne & H)].
    + destruct Hin as [<- | []]. apply lookup_insert_eq.
    + assert (ws <> ws') by (intros <-; exact (Hout r l H Hin)).
      rewrite lookup_insert_ne by assumption. eapply Hb; eassumption.
  - intros r l H. cbn [rooms] in H.
    apply lookup_insert_Some in H as [(_ & <-) | (_ & H)].
    + constructor; [intros []|constructor].
    + eapply Hn. exact H.
Qed.

Lemma consistent_join isOpen ws d st :
  consistent st ->
  (forall l, get (rooms st) (toPropertyKey (roomId d)) = Participants l ->
             wsRoomId st !! ws = None) ->
  consistent (after (joinRoomBranch isOpen ws d st)).
Proof.
  intros (Hk & Hb & Hn) Hfresh. unfold joinRoomBranch.
  destruct (get (rooms st) (toPropertyKey (roomId d))) as [l0| |] eqn:Hg;
    [|repeat split; assumption|repeat split; assumption].
  specialize (Hfresh l0 eq_refl).
  pose proof (not_member_without_roomId st ws Hb Hfresh) as Hout.
  apply get_participants in Hg.
  assert (Hr : roomId d = Some (toPropertyKey (roomId d))).
  { destruct (roomId d) as [r|]; [reflexivity|].
    apply Hk in Hg. discriminate Hg. }
  set (key := toPropertyKey (roomId d)) in *. rewrite Hr.
  cbn [after setRoomId]. repeat split.
  - intros r l H. cbn [rooms] in H.
    apply lookup_insert_Some in H as [(<- & _) | (_ & H)]; eapply Hk; eassumption.
  - intros r l ws' H Hin. cbn [rooms wsRoomId] in *.
    apply lookup_insert_Some in H as [(<- & <-) | (Hne & H)].
    + apply in_app_iff in Hin as [Hin | [<- | []]]; [|apply lookup_insert_eq].
      assert (ws <> ws') by (intros <-; exact (Hout key l0 Hg Hin)).
      rewrite lookup_insert_ne by assumption. eapply Hb; eassumption.
    + assert (ws <> ws') by (intros <-; exact (Hout r l H Hin)).
      rewrite lookup_insert_ne by assumption. eapply Hb; eassumption.
  - intros r l H. cbn [rooms] in H.
    apply lookup_insert_Some in H as [(_ & <-) | (_ & H)]; [|eapply Hn; exact H].
    apply List.NoDup_app; [eapply Hn; exact Hg|constructor; [intros []|constructor]|].
    intros a Ha [<- | []]. exact (Hout key l0 Hg Ha).
Qed.

Lemma consistent_close ws st :
  consistent st -> consistent (after (onClose ws st)).
Proof.
  intros (Hk & Hb & Hn).
  destruct (onClose_cases ws st) as [-> | (r0 & l0 & Hl0 & Hws & Hrooms)];
    [repeat split; assumption|].
  cbv zeta in Hrooms.
  set (l' := List.filter (fun client => negb (client =? ws)) l0) in *.
  assert (Hsub : forall r l, rooms (after (onClose ws st)) !! r = Some l ->
                   exists l1, rooms st !! r = Some l1
                              /\ (forall a, List.In a l -> List.In a l1)
                              /\ (List.NoDup l1 -> List.NoDup l)).
  { intros r l. rewrite Hrooms. destruct (List.length l' =? 0); intros H.
    - apply lookup_delete_Some in H as (_ & H). exists l. auto.
    - apply lookup_insert_Some in H as [(<- & <-) | (_ & H)]; [|exists l; auto].
      exists l0. split; [exact Hl0|]. split.
      + intros a Ha. apply List.filter_In in Ha. tauto.
      + apply List.NoDup_filter. }
  repeat split.
  - intros r l H. destruct (Hsub r l H) as (l1 & H1 & _). eapply Hk. exact H1.
  - intros r l ws' H Hin. destruct (Hsub r l H) as (l1 & H1 & Hin1 & _).
    rewrite Hws. eapply Hb; eauto.
  - intros r l H. destruct (Hsub r l H) as (l1 & H1 & _ & Hnd). eauto.
Qed.

Lemma consistent_handle e st :
  consistent st -> generatedId e ->
  (forall ws, entersRoom e st = Some ws -> wsRoomId st !! ws = None) ->
  consistent (after (handle e st)).
Proof.
  intros Hst Hid Hfresh. destruct e as [newRoomId isOpen ws d|ws]; cbn [handle].
  - cbn [generatedId entersRoom] in *.
    destruct (onMessage_cases newRoomId isOpen ws d st)
      as [(Hc & ->) | [(Hc & Hj & ->) | (_ & _ & ->)]]; [| |exact Hst].
    + rewrite Hc in Hfresh. apply consistent_create; auto.
    + rewrite Hc, Hj in Hfresh. apply consistent_join; [exact Hst|].
      intros l Hl. rewrite Hl in Hfresh. apply Hfresh. reflexivity.
  - apply consistent_close. exact Hst.
Qed.

Lemma consistent_run es :
  forall st, consistent st -> Forall generatedId es -> freshJoins es st ->
             consistent (runEvents es st).
Proof.
  induction es as [|e es IH]; intros st Hst Hids Hfresh; [exact Hst|].
  inversion Hids as [|? ? Hid Hids']; subst. destruct Hfresh as (Hf & Hfresh).
  unfold runEvents in *. cbn [fold_left]. apply IH; [|assumption|assumption].
  apply consistent_handle; assumption.
Qed.


Lemma consistent_inOneRoom st : consistent st -> inOneRoom st.
Proof.
  intros (_ & Hb & _) ws r1 r2 l1 l2 H1 H2 Hin1 Hin2.
  pose proof (Hb r1 l1 ws H1 Hin1) as E1. pose proof (Hb r2 l2 ws H2 Hin2) as E2.
  congruence.
Qed.

(** Every room id of the registry is an id that [createRoomId] returned. *)
Lemma generatedKeys_handle e st :
  generatedKeys st -> generatedId e -> generatedKeys (after (handle e st)).
Proof.
  intros Hk Hid. destruct e as [newRoomId isOpen ws d|ws]; cbn [handle generatedId] in *.
  - destruct (onMessage_cases newRoomId isOpen ws d st)
      as [(Hc & ->) | [(_ & _ & ->) | (_ & _ & ->)]]; [| |exact Hk].
    + intros r l H. cbn [createRoomBranch after rooms] in H.
      apply lookup_insert_Some in H as [(<- & _) | (_ & H)]; [auto|eapply Hk; exact H].
    + unfold joinRoomBranch.
      destruct (get (rooms st) (toPropertyKey (roomId d))) as [l0| |] eqn:Hg;
        [|exact Hk|exact Hk].
      apply get_participants in Hg. intros r l H. cbn [after rooms] in H.
      apply lookup_insert_Some in H as [(<- & _) | (_ & H)]; eapply Hk; eassumption.
  - destruct (onClose_cases ws st) as [-> | (r0 & l0 & Hl0 & _ & Hrooms)]; [exact Hk|].
    cbv zeta in Hrooms. intros r l. rewrite Hrooms.
    destruct (List.length (List.filter (fun client => negb (client =? ws)) l0) =? 0);
      intros H.
    + apply lookup_delete_Some in H as (_ & H). eapply Hk. exact H.
    + apply lookup_insert_Some in H as [(<- & _) | (_ & H)]; eapply Hk; eassumption.
Qed.

Lemma generatedKeys_run es :
  forall st, generatedKeys st -> Forall generatedId es -> generatedKeys (runEvents es st).
Proof.
  induction es as [|e es IH]; intros st Hk Hids; [exact Hk|].
  inversion Hids as [|? ? Hid Hids']; subst.
  unfold runEvents in *. cbn [fold_left]. apply IH; [|assumption].
  apply generatedKeys_handle; assumption.
Qed.

(** C2, as the code has it.  After any sequence of messages and closes no
    room of the registry has an empty list.  If moreover no socket creates or
    joins a room when it already has a [roomId], that is, when it has created
    or joined a room before, then every socket is in at most one room and no
    room lists a socket twice.  The room ids are ids that [createRoomId] can
    return, which all have 25 characters. *)
Theorem registry_invariants (es : list event) :
  noEmptyRoom (runEvents es initial)
  /\ (Forall generatedId es -> freshJoins es initial ->
      inOneRoom (runEvents es initial) /\ noDuplicates (runEvents es initial)).
Proof.
  split.
  - apply noEmptyRoom_run. intros r l. cbn [initial rooms].
    rewrite lookup_empty. discriminate.
  - intros Hids Hfresh.
    pose proof (consistent_run es initial consistent_initial Hids Hfresh) as Hc.
    split; [apply consistent_inOneRoom; exact Hc|]. destruct Hc as (_ & _ & Hn). exact Hn.
Qed.

Lemma registry_invariants_witness :
  runEvents meetAndLeave initial
  = {| rooms := ∅; wsRoomId := <[1 := roomA]> (<[0 := roomA]> ∅) |}
  /\ inOneRoom (runEvents meetAndLeave initial)
  /\ noDuplicates (runEvents meetAndLeave initial).
Proof.
  split; [vm_compute; reflexivity|].
  apply (registry_invariants meetAndLeave).
  - repeat constructor; cbn; intros; reflexivity.
  - cbn [meetAndLeave freshJoins]. repeat split; intros ws Hws; vm_compute in Hws;
      first [discriminate Hws | injection Hws as <-; vm_compute; reflexivity].
Defined.

(** C2 as stated fails: a socket that creates a second room stays in the list
    of the first one. *)
Lemma created_twice_in_two_rooms :
  rooms (runEvents createsTwice initial) !! roomA = Some [0]
  /\ rooms (runEvents createsTwice initial) !! roomB = Some [0]
  /\ ~ inOneRoom (runEvents createsTwice initial).
Proof.
  assert (HA : rooms (runEvents createsTwice initial) !! roomA = Some [0])
    by (vm_compute; reflexivity).
  assert (HB : rooms (runEvents createsTwice initial) !! roomB = Some [0])
    by (vm_compute; reflexivity).
  split; [exact HA|]. split; [exact HB|].
  intros H. specialize (H 0 roomA roomB [0] [0] HA HB (or_introl eq_refl) (or_introl eq_refl)).
  discriminate H.
Qed.

End RelayFacts.

(** ** More of stun.js: the request, short and altered responses *)

Module StunExtras.
Import Stun StunFacts.
Local Open Scope Z_scope.

Lemma byteVal_byteOf_mod z : byteVal (byteOf z) = z mod 256.
Proof.
  assert (E : byteOf z = byteOf (z mod 256)).
  { unfold byteOf. rewrite Z.mod_mod by lia. reflexivity. }
  rewrite E. apply byteVal_byteOf.
  pose proof (Z.mod_pos_bound z 256 ltac:(lia)). lia.
Qed.

Lemma createStunBindingRequest_bytes random :
  createStunBindingRequest random
  = Ok ([x00; x01; x00; x00; x21; x12; xa4; x42] ++ transactionIdOf random).
Proof. reflexivity. Qed.

(** The request of [createStunBindingRequest] is a STUN header and nothing
    else: 20 octets that read back as the Binding Request type, a zero body
    length and the magic constant, followed by the twelve octets drawn for the
    transaction id. *)
Theorem binding_request_layout (random : nat -> Z) :
  exists msg,
    createStunBindingRequest random = Ok msg
    /\ buflen msg = 20
    /\ readUInt16BE msg 0 = Ok BINDING_REQUEST_TYPE
    /\ readUInt16BE msg 2 = Ok 0
    /\ readUInt16BE msg 4 = Ok (MAGIC_COOKIE / 2 ^ 16)
    /\ readUInt16BE msg 6 = Ok (MAGIC_COOKIE mod 2 ^ 16)
    /\ forall k, (k < 12)%nat ->
                 readUInt8 msg (8 + Z.of_nat k) = Ok (random k mod 256).
Proof.
  eexists. split; [apply createStunBindingRequest_bytes|].
  repeat (split; [reflexivity|]).
  intros k Hk.
  rewrite (readUInt8_app_r [x00; x01; x00; x00; x21; x12; xa4; x42] _ _ (Z.of_nat k))
    by (try reflexivity; lia).
  unfold readUInt8. destruct (Z.ltb_spec (Z.of_nat k) 0); [lia|].
  rewrite Nat2Z.id. unfold transactionIdOf.
  rewrite nth_error_map, nth_error_seq.
  destruct (Nat.ltb_spec k 12); [|lia]. cbn [option_map Nat.add].
  f_equal. apply byteVal_byteOf_mod.
Qed.

Lemma binding_request_layout_witness :
  exists msg,
    createStunBindingRequest sampleRandom = Ok msg
    /\ readUInt8 msg (8 + 3) = Ok 122.
Proof.
  destruct (binding_request_layout sampleRandom) as (msg & Hmsg & _ & _ & _ & _ & _ & Hid).
  exists msg. split; [exact Hmsg|]. apply (Hid 3%nat). lia.
Defined.

(** A request that comes back unchanged is never taken for a response: the
    listener rejects it with 'Invalid STUN response', whatever the
    transaction id. *)
Theorem binding_request_is_no_response (random : nat -> Z) :
  exists msg,
    createStunBindingRequest random = Ok msg
    /\ decodeResponse msg = Throw InvalidStunResponse.
Proof.
  eexists. split; [apply createStunBindingRequest_bytes|]. reflexivity.
Qed.

Lemma walk_at_end msg offset :
  buflen msg <= offset -> walk msg offset = Throw NoXorMappedAddress.
Proof.
  intros H. rewrite walk_unfold.
  destruct (Z.ltb_spec offset (buflen msg)); [lia|reflexivity].
Qed.

(** Short input.  On a buffer of at most 20 octets [decodeXorAddress] reads
    nothing and throws 'No XOR-MAPPED-ADDRESS found'; the listener throws a
    RangeError on a datagram of fewer than two octets, and rejects a response
    header without attributes with 'No XOR-MAPPED-ADDRESS found'. *)
Theorem short_buffers (msg : Buffer) :
  (buflen msg <= 20 -> decodeXorAddress msg = Throw NoXorMappedAddress)
  /\ (buflen msg < 2 -> decodeResponse msg = Throw RangeError)
  /\ (buflen msg <= 20 -> readUInt16BE msg 0 = Ok BINDING_RESPONSE_TYPE ->
      decodeResponse msg = Throw NoXorMappedAddress).
Proof.
  split; [|split].
  - intros H. apply walk_at_end. exact H.
  - intros H. destruct msg as [|b0 [|b1 msg]]; [reflexivity|reflexivity|].
    unfold buflen in H. cbn [List.length] in H. lia.
  - intros H Ht. rewrite decodeResponse_valid_type by exact Ht.
    apply walk_at_end. exact H.
Qed.

Lemma short_buffers_witness :
  decodeXorAddress [] = Throw NoXorMappedAddress
  /\ decodeResponse [x01] = Throw RangeError
  /\ decodeResponse (responseHeader 0 sampleTransactionId) = Throw NoXorMappedAddress.
Proof.
  split; [|split].
  - apply (short_buffers []). unfold buflen. cbn. lia.
  - apply (short_buffers [x01]). unfold buflen. cbn. lia.
  - apply (short_buffers (responseHeader 0 sampleTransactionId)).
    + unfold buflen. cbn. lia.
    + reflexivity.
Defined.

Section SameOutsideHeader.
Variables m1 m2 : Buffer.
Hypothesis Hsame : sameOutsideHeader m1 m2.

Lemma same_buflen : buflen m1 = buflen m2.
Proof. unfold buflen. destruct Hsame as (-> & _). reflexivity. Qed.

Lemma same_readUInt8 offset :
  offset < 2 \/ 20 <= offset -> readUInt8 m1 offset = readUInt8 m2 offset.
Proof.
  intros Ho. unfold readUInt8. destruct (Z.ltb_spec offset 0); [reflexivity|].
  destruct Hsame as (_ & Hnth). rewrite Hnth by lia. reflexivity.
Qed.

Lemma same_readUInt16BE offset :
  offset = 0 \/ 20 <= offset -> readUInt16BE m1 offset = readUInt16BE m2 offset.
Proof.
  intros Ho. unfold readUInt16BE.
  rewrite (same_readUInt8 offset), (same_readUInt8 (offset + 1)) by lia.
  reflexivity.
Qed.

Lemma same_readAttrHeader offset :
  20 <= offset -> readAttrHeader m1 offset = readAttrHeader m2 offset.
Proof.
  intros Ho. unfold readAttrHeader.
  rewrite (same_readUInt16BE offset), (same_readUInt16BE (offset + 2)) by lia.
  reflexivity.
Qed.

Lemma same_ipBytesFrom offset n :
  20 <= offset ->
  forall i, 0 <= i -> ipBytesFrom m1 offset i n = ipBytesFrom m2 offset i n.
Proof.
  intros Ho. induction n as [|n IH]; intros i Hi; [reflexivity|].
  cbn [ipBytesFrom]. rewrite (same_readUInt8 (offset + 8 + i)) by lia.
  rewrite IH by lia. reflexivity.
Qed.

Lemma same_decodeFound offset :
  20 <= offset -> decodeFound m1 offset = decodeFound m2 offset.
Proof.
  intros Ho. unfold decodeFound.
  rewrite (same_readUInt8 (offset + 5)), (same_readUInt16BE (offset + 6)) by lia.
  rewrite same_ipBytesFrom by lia. reflexivity.
Qed.

Lemma same_walk : forall offset, 20 <= offset -> walk m1 offset = walk m2 offset.
Proof.
  apply (walk_induction m1 (fun offset => 20 <= offset -> walk m1 offset = walk m2 offset)).
  intros offset IH Ho. rewrite (walk_unfold m1), (walk_unfold m2).
  rewrite <- same_buflen, <- same_readAttrHeader by exact Ho.
  destruct (Z.ltb_spec offset (buflen m1)) as [Hlt|]; [|reflexivity].
  destruct (readAttrHeader m1 offset) as [[t l]|e] eqn:Hhdr; [|reflexivity].
  rewrite same_decodeFound by exact Ho.
  destruct (Z.eqb_spec t XOR_MAPPED_ADDRESS_TYPE) as [|Hne]; [reflexivity|].
  apply (IH t l Hlt eq_refl Hne).
  apply readAttrHeader_range in Hhdr.
  pose proof (padding_range l ltac:(lia)). unfold nextOffset. lia.
Qed.

End SameOutsideHeader.

(** The decoder does not look at the body length, the magic constant or the
    transaction id of a response: two datagrams of the same length that differ
    only in the octets 2 to 19 are decoded alike, so a response is accepted
    whatever transaction id it carries. *)
Theorem header_fields_not_checked (m1 m2 : Buffer) :
  sameOutsideHeader m1 m2 -> decodeResponse m1 = decodeResponse m2.
Proof.
  intros Hsame. unfold decodeResponse, decodeXorAddress.
  rewrite (same_readUInt16BE m1 m2 Hsame 0) by lia.
  rewrite (same_walk m1 m2 Hsame 20) by lia. reflexivity.
Qed.

Lemma header_fields_not_checked_witness :
  sampleResponse <> sampleResponseOtherId
  /\ decodeResponse sampleResponseOtherId = Ok {| ip := "192.0.2.1"; port := 54321 |}.
Proof.
  split; [intros H; vm_compute in H; discriminate H|].
  rewrite <- (header_fields_not_checked sampleResponse sampleResponseOtherId).
  - vm_compute. reflexivity.
  - split; [reflexivity|]. intros i [Hi | Hi].
    + destruct i as [|[|i]]; [reflexivity|reflexivity|lia].
    + do 20 (destruct i as [|i]; [lia|]). reflexivity.
Defined.

Lemma decodeFound_xorMappedAddressRaw declared reserved family a b c d p
    (after : Buffer) :
  0 <= a <= 255 -> 0 <= b <= 255 -> 0 <= c <= 255 -> 0 <= d <= 255 ->
  0 <= p <= 65535 ->
  decodeFound (xorMappedAddressRaw declared reserved family a b c d p ++ after) 0
  = Ok {| ip := dottedQuad a b c d; port := p |}.
Proof.
  intros Ha Hb Hc Hd Hp.
  rewrite <- (decodeFound_xorMappedAddress a b c d p after Ha Hb Hc Hd Hp).
  reflexivity.
Qed.

(** Of a XOR-MAPPED-ADDRESS attribute the decoder uses the port and the four
    address octets only: the declared length, the reserved octet and the
    family octet make no difference, so an attribute marked as IPv6 is read
    as an IPv4 address too. *)
Theorem family_and_length_not_checked transactionId before declared reserved
    family a b c d p after n :
  List.length transactionId = 12%nat ->
  Forall unrelated before ->
  0 <= declared <= 65535 ->
  0 <= a <= 255 -> 0 <= b <= 255 -> 0 <= c <= 255 -> 0 <= d <= 255 ->
  0 <= p <= 65535 ->
  decodeResponse (responseHeader n transactionId ++ encodeAttributes before
                    ++ xorMappedAddressRaw declared reserved family a b c d p
                    ++ after)
  = Ok {| ip := dottedQuad a b c d; port := p |}.
Proof.
  intros Hid Hbefore Hdecl Ha Hb Hc Hd Hp.
  set (header := responseHeader n transactionId).
  assert (Hlen : buflen header = 20) by (apply buflen_responseHeader; exact Hid).
  rewrite decodeResponse_valid_type.
  2:{ unfold header, responseHeader. rewrite <- !app_assoc.
      apply readUInt16BE_u16be. unfold BINDING_RESPONSE_TYPE. lia. }
  rewrite <- Hlen. rewrite (walk_skip_attributes before _ Hbefore header).
  rewrite <- buflen_app. rewrite app_assoc.
  set (pre := header ++ encodeAttributes before).
  rewrite walk_unfold. rewrite !buflen_app. pose proof (buflen_nonneg after).
  change (buflen (xorMappedAddressRaw declared reserved family a b c d p)) with 12.
  destruct (Z.ltb_spec (buflen pre) (buflen pre + (12 + buflen after))); [|lia].
  rewrite (readAttrHeader_app_r pre _ (buflen pre) eq_refl).
  unfold xorMappedAddressRaw at 1. rewrite <- !app_assoc.
  rewrite readAttrHeader_encoded by (unfold XOR_MAPPED_ADDRESS_TYPE; lia).
  rewrite Z.eqb_refl. rewrite decodeFound_app_r.
  apply decodeFound_xorMappedAddressRaw; assumption.
Qed.

Lemma family_and_length_not_checked_witness :
  decodeResponse (responseHeader 12 sampleTransactionId ++ encodeAttributes []
                    ++ xorMappedAddressRaw 20 xff x02 198 51 100 9 3478 ++ [])
  = Ok {| ip := "198.51.100.9"; port := 3478 |}.
Proof.
  apply (family_and_length_not_checked sampleTransactionId [] 20 xff x02
           198 51 100 9 3478 [] 12);
    [reflexivity | constructor | lia | lia | lia | lia | lia | lia].
Defined.

(** An attribute of another type whose value is cut short, or lacks its
    padding, at the end of the datagram is not noticed: the walk steps past
    the end of the buffer and the decoder reports
    'No XOR-MAPPED-ADDRESS found', not a RangeError. *)
Theorem truncated_last_attribute transactionId before t l (value : Buffer) n :
  List.length transactionId = 12%nat ->
  Forall unrelated before ->
  0 <= t <= 65535 -> t <> XOR_MAPPED_ADDRESS_TYPE ->
  buflen value <= l <= 65535 ->
  decodeResponse (responseHeader n transactionId ++ encodeAttributes before
                    ++ u16be t ++ u16be l ++ value)
  = Throw NoXorMappedAddress.
Proof.
  intros Hid Hbefore Ht Hne Hl.
  pose proof (buflen_nonneg value).
  set (header := responseHeader n transactionId).
  assert (Hlen : buflen header = 20) by (apply buflen_responseHeader; exact Hid).
  rewrite decodeResponse_valid_type.
  2:{ unfold header, responseHeader. rewrite <- !app_assoc.
      apply readUInt16BE_u16be. unfold BINDING_RESPONSE_TYPE. lia. }
  rewrite <- Hlen. rewrite (walk_skip_attributes before _ Hbefore header).
  rewrite <- buflen_app. rewrite app_assoc.
  set (pre := header ++ encodeAttributes before).
  rewrite walk_unfold. rewrite !buflen_app.
  change (buflen (u16be t)) with 2. change (buflen (u16be l)) with 2.
  destruct (Z.ltb_spec (buflen pre) (buflen pre + (2 + (2 + buflen value)))); [|lia].
  rewrite (readAttrHeader_app_r pre _ (buflen pre) eq_refl).
  rewrite readAttrHeader_encoded by lia.
  destruct (Z.eqb_spec t XOR_MAPPED_ADDRESS_TYPE); [contradiction|].
  apply walk_at_end. rewrite !buflen_app.
  change (buflen (u16be t)) with 2. change (buflen (u16be l)) with 2.
  pose proof (padding_range l ltac:(lia)). unfold nextOffset. lia.
Qed.

Lemma truncated_last_attribute_witness :
  decodeResponse (responseHeader 8 sampleTransactionId ++ encodeAttributes []
                    ++ u16be 0x8022 ++ u16be 16 ++ [x61; x62; x63])
  = Throw NoXorMappedAddress.
Proof.
  apply (truncated_last_attribute sampleTransactionId [] 0x8022 16 [x61; x62; x63] 8);
    [reflexivity | constructor | lia | discriminate | unfold buflen; cbn; lia].
Defined.

Lemma run_started cs :
  run cs started = started
  \/ exists c, List.In c cs /\ terminal c = true /\ run cs started = completed c.
Proof.
  induction cs as [|c cs IH]; [left; reflexivity|].
  unfold run in *. cbn [fold_left]. destruct (terminal c) eqn:Hc.
  - right. exists c. split; [left; reflexivity|]. split; [exact Hc|].
    rewrite run1_terminal by exact Hc.
    apply (run_after_completion cs); [reflexivity|apply outcomeOf_settled].
  - rewrite run1_not_terminal by exact Hc.
    destruct IH as [IH | (c' & Hin & Hc' & IH)]; [left; exact IH|].
    right. exists c'. split; [right; exact Hin|]. split; assumption.
Qed.

(** The promise of [getPublicAddress] is fulfilled only with an address that
    [decodeResponse] returned for a datagram that arrived, and is rejected
    with a decoding error only if a datagram arrived that gave this error. *)
Theorem fulfilled_only_by_a_response (cs : list callback) :
  (forall r, settled (run cs started) = Fulfilled r ->
             exists responseMsg,
               List.In (OnMessage responseMsg) cs /\ decodeResponse responseMsg = Ok r)
  /\ (forall e, settled (run cs started) = Rejected (Caught e) ->
                exists responseMsg,
                  List.In (OnMessage responseMsg) cs
                  /\ decodeResponse responseMsg = Throw e).
Proof.
  destruct (run_started cs) as [-> | (c & Hin & Hc & ->)].
  - split; intros ?; discriminate.
  - unfold completed. cbn [settled].
    destruct c as [m|err|responseMsg|]; cbn [outcomeOf]; try (split; intros ?; discriminate).
    destruct (decodeResponse responseMsg) as [r0|e0] eqn:Hd; split; intros x Hx;
      try discriminate; injection Hx as <-; exists responseMsg; auto.
Qed.

Lemma fulfilled_only_by_a_response_witness :
  exists responseMsg,
    List.In (OnMessage responseMsg) [OnSent false; OnMessage sampleResponse; OnTimeout]
    /\ decodeResponse responseMsg = Ok {| ip := "192.0.2.1"; port := 54321 |}.
Proof.
  apply (fulfilled_only_by_a_response [OnSent false; OnMessage sampleResponse; OnTimeout]).
  vm_compute. reflexivity.
Defined.

End StunExtras.

(** ** More of server.js: who is sent what, what a handler touches, when it
       throws *)

Module RelayExtras.
Import Relay RelayFacts.

Lemma get_undefined_or_inherited (rs : gmap string (list conn)) key :
  rs !! key = None ->
  get rs key = if bool_decide (key ∈ objectPrototypeKeys) then Inherited else Undefined.
Proof. intros H. unfold get. rewrite H. reflexivity. Qed.

Lemma in_notices (u : option string) (l : list conn) c m :
  List.In (c, m) (map (fun client => (client, UserJoined u)) l)
  <-> m = UserJoined u /\ List.In c l.
Proof.
  rewrite List.in_map_iff. split.
  - intros (x & [= <- <-] & Hin). auto.
  - intros (-> & Hin). exists c. auto.
Qed.

Lemma in_forwards (d : data) (l : list conn) c m :
  List.In (c, m) (map (fun client => (client, Forwarded d)) l)
  <-> m = Forwarded d /\ List.In c l.
Proof.
  rewrite List.in_map_iff. split.
  - intros (x & [= <- <-] & Hin). auto.
  - intros (-> & Hin). exists c. auto.
Qed.

Lemma hd_in_app (l : list conn) ws : List.In (List.hd ws (l ++ [ws])) (l ++ [ws]).
Proof. destruct l as [|a l]; left; reflexivity. Qed.

(** What a "join-room" for a room of the registry sends. *)
Lemma join_found newRoomId isOpen ws d st l :
  isType d "join-room" = true ->
  rooms st !! toPropertyKey (roomId d) = Some l ->
  onMessage newRoomId isOpen ws d st
  = {| after := {| rooms := <[toPropertyKey (roomId d) := l ++ [ws]]> (rooms st);
                   wsRoomId := setRoomId ws (roomId d) (wsRoomId st) |};
       sent := map (fun client => (client, UserJoined (username d)))
                   (List.filter isOpen (l ++ [ws]))
               ++ (if 2 <=? List.length (l ++ [ws])
                   then [(List.hd ws (l ++ [ws]), StartWebrtc)] else []);
       threw := false |}.
Proof.
  intros Hj Hl. rewrite onMessage_join by exact Hj.
  unfold joinRoomBranch. apply get_participants in Hl. rewrite Hl.
  f_equal. f_equal. destruct (2 <=? List.length (l ++ [ws])); [|reflexivity].
  destruct l; reflexivity.
Qed.

(** What a negotiation message for a room of the registry sends. *)
Lemma negotiation_found newRoomId isOpen ws d st l :
  isNegotiation d = true ->
  rooms st !! toPropertyKey (roomId d) = Some l ->
  onMessage newRoomId isOpen ws d st
  = {| after := st;
       sent := map (fun client => (client, Forwarded d))
                   (List.filter (fun client => negb (client =? ws) && isOpen client) l);
       threw := false |}.
Proof.
  intros Hn Hl. rewrite onMessage_negotiation by exact Hn.
  unfold relayBranch. apply get_participants in Hl. rewrite Hl. reflexivity.
Qed.

(** The relay keeps rooms apart: whatever the message and the registry, every
    [send] that the message handler makes goes to the sender of the message or
    to a socket that is, after the message, in the list of the room that the
    message names. *)
Theorem sends_stay_in_the_room newRoomId isOpen ws d st c m :
  List.In (c, m) (sent (onMessage newRoomId isOpen ws d st)) ->
  c = ws
  \/ exists l,
       rooms (after (onMessage newRoomId isOpen ws d st)) !! toPropertyKey (roomId d)
       = Some l
       /\ List.In c l.
Proof.
  destruct (isType d "create-room") eqn:Hc.
  { rewrite onMessage_create by exact Hc. cbn [createRoomBranch sent].
    intros [[= <- _] | []]. left. reflexivity. }
  destruct (isType d "join-room") eqn:Hj.
  { destruct (rooms st !! toPropertyKey (roomId d)) as [l|] eqn:Hl.
    - rewrite (join_found _ _ _ _ _ l Hj Hl). cbn [sent after rooms].
      intros Hin. right. exists (l ++ [ws]). split; [apply lookup_insert_eq|].
      apply in_app_iff in Hin as [Hin | Hin].
      + apply in_notices in Hin as (_ & Hin). apply List.filter_In in Hin. tauto.
      + destruct (2 <=? List.length (l ++ [ws])); [|destruct Hin].
        destruct Hin as [[= <- _] | []]. apply hd_in_app.
    - rewrite onMessage_join by exact Hj. unfold joinRoomBranch.
      rewrite (get_undefined_or_inherited _ _ Hl).
      destruct (bool_decide (toPropertyKey (roomId d) ∈ objectPrototypeKeys));
        cbn [sent]; [intros []|].
      intros [[= <- _] | []]. left. reflexivity. }
  destruct (isNegotiation d) eqn:Hn.
  { destruct (rooms st !! toPropertyKey (roomId d)) as [l|] eqn:Hl.
    - rewrite (negotiation_found _ _ _ _ _ l Hn Hl). cbn [sent after].
      intros Hin. apply in_forwards in Hin as (_ & Hin).
      apply List.filter_In in Hin. right. exists l. tauto.
    - rewrite onMessage_negotiation by exact Hn. unfold relayBranch.
      rewrite (get_undefined_or_inherited _ _ Hl).
      destruct (bool_decide (toPropertyKey (roomId d) ∈ objectPrototypeKeys));
        cbn [sent skip]; intros []. }
  rewrite onMessage_unrecognized; [intros []|].
  unfold unrecognized. rewrite Hc, Hj, Hn. reflexivity.
Qed.

Lemma sends_stay_in_the_room_witness :
  exists l,
    rooms (after (onMessage roomB allOpen 0 (iceMsg (Some roomA)) twoInRoomA)) !! roomA
    = Some l
    /\ List.In 1 l.
Proof.
  destruct (sends_stay_in_the_room roomB allOpen 0 (iceMsg (Some roomA)) twoInRoomA
              1 (Forwarded (iceMsg (Some roomA)))) as [H | H].
  - vm_compute. left. reflexivity.
  - discriminate H.
  - exact H.
Defined.

(** A "join-room" for a room of the registry tells every open socket of the
    room, the joiner included, that the user has joined, with the joiner's
    username; a socket that is not open is told nothing, and apart from these
    notices only "start-webrtc" is sent.  The room lookup does not throw. *)
Theorem join_notifies_open_members newRoomId isOpen ws d st l :
  isType d "join-room" = true ->
  rooms st !! toPropertyKey (roomId d) = Some l ->
  let o := onMessage newRoomId isOpen ws d st in
  threw o = false
  /\ (forall c, List.In (c, UserJoined (username d)) (sent o)
                <-> (List.In c l \/ c = ws) /\ isOpen c = true)
  /\ (forall c m, List.In (c, m) (sent o) ->
                  m = UserJoined (username d) \/ m = StartWebrtc)
  /\ map fst (List.filter (fun s => negb (isStartWebrtc (snd s))) (sent o))
     = List.filter isOpen (l ++ [ws]).
Proof.
  intros Hj Hl o. subst o. rewrite (join_found _ _ _ _ _ l Hj Hl). cbn [threw sent].
  split; [reflexivity|]. split; [|split].
  - intros c. rewrite in_app_iff, in_notices, List.filter_In, in_app_iff. cbn [List.In].
    split.
    + intros [(_ & [Hin | [<- | []]] & Ho) | Hin]; [tauto|tauto|].
      destruct (2 <=? List.length (l ++ [ws])); [|destruct Hin].
      destruct Hin as [[=] | []].
    + intros ([Hin | ->] & Ho); left; tauto.
  - intros c m Hin. apply in_app_iff in Hin as [Hin | Hin].
    + apply in_notices in Hin. tauto.
    + destruct (2 <=? List.length (l ++ [ws])); [|destruct Hin].
      destruct Hin as [[= _ <-] | []]. tauto.
  - rewrite List.filter_app, List.map_app.
    assert (E1 : forall xs : list conn,
               map fst (List.filter (fun s => negb (isStartWebrtc (snd s)))
                          (map (fun client => (client, UserJoined (username d))) xs))
               = xs).
    { induction xs as [|x xs IH]; [reflexivity|]. cbn. f_equal. exact IH. }
    rewrite E1. destruct (2 <=? List.length (l ++ [ws])); cbn; apply app_nil_r.
Qed.

Lemma join_notifies_open_members_witness :
  List.In (1, UserJoined (Some "carol"))
    (sent (onMessage roomB (fun c => negb (c =? 0)) 2
             (joinRoomMsg (Some roomA) "carol") twoInRoomA))
  /\ ~ List.In (0, UserJoined (Some "carol"))
        (sent (onMessage roomB (fun c => negb (c =? 0)) 2
                 (joinRoomMsg (Some roomA) "carol") twoInRoomA)).
Proof.
  destruct (join_notifies_open_members roomB (fun c => negb (c =? 0)) 2
              (joinRoomMsg (Some roomA) "carol") twoInRoomA [0; 1])
    as (_ & H & _); [reflexivity|vm_compute; reflexivity|].
  split.
  - apply H. split; [left; right; left; reflexivity|reflexivity].
  - intros Hin. apply H in Hin as (_ & Ho). discriminate Ho.
Defined.

(** A negotiation message for a room of the registry is forwarded as it is to
    every open socket of the room other than the sender, and to nobody else;
    the sender never gets its own message back; whether the sender is itself
    in the room is not checked.  When the registry has no such room and the
    id is not a property name of [Object.prototype], nothing is sent. *)
Theorem negotiation_delivery newRoomId isOpen ws d st :
  isNegotiation d = true ->
  let o := onMessage newRoomId isOpen ws d st in
  match rooms st !! toPropertyKey (roomId d) with
  | Some l =>
      threw o = false
      /\ (forall c m, List.In (c, m) (sent o)
                      <-> m = Forwarded d /\ List.In c l /\ c <> ws /\ isOpen c = true)
      /\ map fst (sent o)
         = List.filter (fun c => negb (c =? ws) && isOpen c) l
  | None =>
      toPropertyKey (roomId d) ∉ objectPrototypeKeys -> o = skip st
  end.
Proof.
  intros Hn o. subst o.
  destruct (rooms st !! toPropertyKey (roomId d)) as [l|] eqn:Hl.
  - rewrite (negotiation_found _ _ _ _ _ l Hn Hl). cbn [threw sent].
    split; [reflexivity|]. split.
    + intros c m. rewrite in_forwards, List.filter_In, andb_true_iff, negb_true_iff.
      rewrite Nat.eqb_neq. tauto.
    + rewrite List.map_map. cbn [fst]. apply List.map_id.
  - intros Hout. rewrite onMessage_negotiation by exact Hn. unfold relayBranch.
    rewrite (get_undefined_or_inherited _ _ Hl).
    rewrite bool_decide_eq_false_2 by exact Hout. reflexivity.
Qed.

Lemma negotiation_delivery_witness :
  sent (onMessage roomB allOpen 7 (iceMsg (Some roomA)) twoInRoomA)
  = [(0, Forwarded (iceMsg (Some roomA))); (1, Forwarded (iceMsg (Some roomA)))]
  /\ map fst (sent (onMessage roomB allOpen 0 (iceMsg (Some roomA)) twoInRoomA)) = [1].
Proof.
  split; [vm_compute; reflexivity|].
  pose proof (negotiation_delivery roomB allOpen 0 (iceMsg (Some roomA)) twoInRoomA
                eq_refl) as H.
  cbv zeta in H.
  change (rooms twoInRoomA !! toPropertyKey (roomId (iceMsg (Some roomA))))
    with (Some [0; 1]) in H.
  destruct H as (_ & _ & ->). reflexivity.
Defined.

Lemma lookup_setRoomId_ne ws c r (m : gmap conn string) :
  c <> ws -> setRoomId ws r m !! c = m !! c.
Proof.
  intros Hne. destruct r as [s|]; cbn [setRoomId].
  - apply lookup_insert_ne. congruence.
  - apply lookup_delete_ne. congruence.
Qed.

(** What a message leaves alone: no message changes the list of a room other
    than the one that a "create-room" makes or that a "join-room" names, nor
    the [roomId] of a socket other than its sender. *)
Theorem message_frame newRoomId isOpen ws d st :
  let o := onMessage newRoomId isOpen ws d st in
  (forall r, (isType d "create-room" = true -> r <> newRoomId) ->
             (isType d "join-room" = true -> r <> toPropertyKey (roomId d)) ->
             rooms (after o) !! r = rooms st !! r)
  /\ (forall c, c <> ws -> wsRoomId (after o) !! c = wsRoomId st !! c).
Proof.
  intros o. subst o.
  destruct (onMessage_cases newRoomId isOpen ws d st)
    as [(Hc & ->) | [(_ & Hj & ->) | (_ & _ & ->)]].
  - cbn [createRoomBranch after rooms wsRoomId]. split.
    + intros r Hr _. apply lookup_insert_ne. specialize (Hr Hc). congruence.
    + intros c Hne. apply lookup_insert_ne. congruence.
  - unfold joinRoomBranch.
    destruct (get (rooms st) (toPropertyKey (roomId d))); cbn [after rooms wsRoomId];
      [|split; reflexivity|split; reflexivity].
    split.
    + intros r _ Hr. apply lookup_insert_ne. specialize (Hr Hj). congruence.
    + intros c Hne. apply lookup_setRoomId_ne. exact Hne.
  - split; reflexivity.
Qed.

Lemma message_frame_witness :
  rooms (after (onMessage roomB allOpen 5 createRoomMsg twoInRoomA)) !! roomA
  = Some [0; 1]
  /\ wsRoomId (after (onMessage roomB allOpen 5 createRoomMsg twoInRoomA)) !! 1
     = Some roomA.
Proof.
  destruct (message_frame roomB allOpen 5 createRoomMsg twoInRoomA) as (Hr & Hw).
  split.
  - rewrite Hr; [vm_compute; reflexivity|intros _; discriminate|intros H; discriminate H].
  - rewrite Hw; [vm_compute; reflexivity|discriminate].
Defined.



Lemma onClose_found ws st r l :
  wsRoomId st !! ws = Some r -> truthy r = true -> rooms st !! r = Some l ->
  onClose ws st
  = {| after := {| rooms := if List.length (List.filter (fun c => negb (c =? ws)) l) =? 0
                            then delete r (rooms st)
                            else <[r := List.filter (fun c => negb (c =? ws)) l]> (rooms st);
                   wsRoomId := wsRoomId st |};
       sent := []; threw := false |}.
Proof.
  intros Hw Ht Hl. unfold onClose. rewrite Hw, Ht.
  apply get_participants in Hl. rewrite Hl. reflexivity.
Qed.

(** What a close does.  For a socket whose [roomId] names a room of the
    registry, the close handler takes every occurrence of the socket out of
    that room's list and keeps the other sockets in their order; it deletes
    the room exactly when nobody else is left; it leaves every other room and
    every [roomId] as they were (the socket's own [roomId] is not cleared),
    sends nothing and does not throw. *)
Theorem close_removes_socket ws st r l :
  wsRoomId st !! ws = Some r -> truthy r = true -> rooms st !! r = Some l ->
  let o := onClose ws st in
  let others := List.filter (fun c => negb (c =? ws)) l in
  rooms (after o) !! r = (if List.length others =? 0 then None else Some others)
  /\ (forall c, List.In c others <-> List.In c l /\ c <> ws)
  /\ (forall r', r' <> r -> rooms (after o) !! r' = rooms st !! r')
  /\ wsRoomId (after o) = wsRoomId st
  /\ sent o = [] /\ threw o = false.
Proof.
  intros Hw Ht Hl o others. subst o. rewrite (onClose_found ws st r l Hw Ht Hl).
  fold others. cbn [after rooms wsRoomId sent threw].
  split; [|split; [|split; [|auto]]].
  - destruct (List.length others =? 0); [apply lookup_delete_eq|apply lookup_insert_eq].
  - intros c. unfold others. rewrite List.filter_In, negb_true_iff, Nat.eqb_neq. tauto.
  - intros r' Hne. destruct (List.length others =? 0);
      [apply lookup_delete_ne|apply lookup_insert_ne]; congruence.
Qed.

Lemma close_removes_socket_witness :
  rooms (after (onClose 0 twoInRoomA)) !! roomA = Some [1]
  /\ rooms (after (onClose 1 (after (onClose 0 twoInRoomA)))) !! roomA = None.
Proof.
  split.
  - destruct (close_removes_socket 0 twoInRoomA roomA [0; 1]) as (H & _);
      [vm_compute; reflexivity | reflexivity | vm_compute; reflexivity|].
    exact H.
  - destruct (close_removes_socket 1 (after (onClose 0 twoInRoomA)) roomA [1]) as (H & _);
      [vm_compute; reflexivity | reflexivity | vm_compute; reflexivity|].
    exact H.
Defined.

Lemma filter_filter_same (f : conn -> bool) (l : list conn) :
  List.filter f (List.filter f l) = List.filter f l.
Proof.
  induction l as [|a l IH]; [reflexivity|]. cbn [List.filter].
  destruct (f a) eqn:E; [|exact IH]. cbn [List.filter]. rewrite E, IH. reflexivity.
Qed.

(** A second close event for the same socket changes nothing more: the
    registry after two closes is the registry after one. *)
Theorem close_twice ws st :
  after (onClose ws (after (onClose ws st))) = after (onClose ws st).
Proof.
  destruct (wsRoomId st !! ws) as [r|] eqn:Hw.
  2:{ unfold onClose at 2 3. rewrite Hw. cbn [skip after].
      unfold onClose. rewrite Hw. reflexivity. }
  destruct (truthy r) eqn:Ht.
  2:{ unfold onClose at 2 3. rewrite Hw, Ht. cbn [skip after].
      unfold onClose. rewrite Hw, Ht. reflexivity. }
  destruct (rooms st !! r) as [l|] eqn:Hl.
  - rewrite (onClose_found ws st r l Hw Ht Hl). cbn [after].
    assert (Hff : List.filter (fun c => negb (c =? ws))
                    (List.filter (fun c => negb (c =? ws)) l)
                  = List.filter (fun c => negb (c =? ws)) l)
      by apply filter_filter_same.
    remember (List.filter (fun c => negb (c =? ws)) l) as others eqn:Ho.
    destruct (Nat.eqb_spec (List.length others) 0) as [Hz|Hnz].
    + unfold onClose. cbn [wsRoomId rooms]. rewrite Hw, Ht.
      unfold get. rewrite lookup_delete_eq.
      destruct (bool_decide (r ∈ objectPrototypeKeys)); reflexivity.
    + rewrite (onClose_found ws _ r others); cbn [wsRoomId rooms];
        [|exact Hw|exact Ht|apply lookup_insert_eq].
      cbn [after]. rewrite Hff.
      destruct (Nat.eqb_spec (List.length others) 0); [contradiction|].
      rewrite insert_insert_eq. reflexivity.
  - assert (E : after (onClose ws st) = st).
    { unfold onClose. rewrite Hw, Ht. unfold get. rewrite Hl.
      destruct (bool_decide (r ∈ objectPrototypeKeys)); reflexivity. }
    rewrite E. exact E.
Qed.

Lemma truthy_generated r : String.length r = 25 -> truthy r = true.
Proof. destruct r; [discriminate|reflexivity]. Qed.

(** A room ends with its last participant.  When the socket that created a
    room closes before anybody joined, the room is deleted, and a later
    "join-room" for its id is answered with the error "Room not found", to
    the sender only, and changes nothing. *)
Theorem room_ends_with_its_creator newRoomId isOpen ws d st :
  isType d "create-room" = true ->
  String.length newRoomId = 25 ->
  let st' := after (onClose ws (after (onMessage newRoomId isOpen ws d st))) in
  rooms st' !! newRoomId = None
  /\ forall newRoomId' isOpen' ws' d',
       isType d' "join-room" = true -> roomId d' = Some newRoomId ->
       onMessage newRoomId' isOpen' ws' d' st'
       = {| after := st'; sent := [(ws', ErrorMessage "Room not found")];
            threw := false |}.
Proof.
  intros Hc Hlen st'.
  assert (Hgone : rooms st' !! newRoomId = None).
  { subst st'. rewrite onMessage_create by exact Hc.
    rewrite (onClose_found ws _ newRoomId [ws]); cbn [createRoomBranch after rooms wsRoomId];
      [|apply lookup_insert_eq|apply truthy_generated; exact Hlen|apply lookup_insert_eq].
    cbn [List.filter]. rewrite Nat.eqb_refl. cbn [negb List.length Nat.eqb].
    apply lookup_delete_eq. }
  split; [exact Hgone|].
  intros newRoomId' isOpen' ws' d' Hj Hr. apply join_unknown_room; [exact Hj|].
  rewrite Hr. cbn [toPropertyKey]. rewrite (get_undefined_or_inherited _ _ Hgone).
  rewrite generated_key_not_inherited by exact Hlen. reflexivity.
Qed.

Lemma room_ends_with_its_creator_witness :
  rooms (after (onClose 4 (after (onMessage roomB allOpen 4 createRoomMsg twoInRoomA))))
    !! roomB = None
  /\ sent (onMessage roomA allOpen 5 (joinRoomMsg (Some roomB) "dave")
             (after (onClose 4 (after (onMessage roomB allOpen 4 createRoomMsg twoInRoomA)))))
     = [(5, ErrorMessage "Room not found")].
Proof.
  destruct (room_ends_with_its_creator roomB allOpen 4 createRoomMsg twoInRoomA
              eq_refl eq_refl) as (Hgone & Hjoin).
  split; [exact Hgone|].
  rewrite (Hjoin roomA allOpen 5 (joinRoomMsg (Some roomB) "dave") eq_refl eq_refl).
  reflexivity.
Defined.

(** Create, then join.  When socket [a] has created a room and socket [b]
    joins it, the room lists [a] and then [b], [b] carries the room id, the
    "user-joined" notice goes to those of the two that are open, and
    "start-webrtc" goes to [a], the creator. *)
Theorem create_then_join newRoomId newRoomId' isOpen isOpen' a b dc dj st :
  isType dc "create-room" = true ->
  isType dj "join-room" = true ->
  roomId dj = Some newRoomId ->
  let o := onMessage newRoomId' isOpen' b dj
             (after (onMessage newRoomId isOpen a dc st)) in
  rooms (after o) !! newRoomId = Some [a; b]
  /\ wsRoomId (after o) !! b = Some newRoomId
  /\ sent o = map (fun c => (c, UserJoined (username dj))) (List.filter isOpen' [a; b])
              ++ [(a, StartWebrtc)]
  /\ threw o = false.
Proof.
  intros Hc Hj Hr o. subst o. rewrite (onMessage_create newRoomId) by exact Hc.
  rewrite (join_found _ _ _ _ _ [a]); [|exact Hj|].
  2:{ rewrite Hr. cbn [toPropertyKey createRoomBranch after rooms]. apply lookup_insert_eq. }
  rewrite Hr. cbn [toPropertyKey after rooms wsRoomId sent threw setRoomId].
  split; [apply lookup_insert_eq|]. split; [apply lookup_insert_eq|].
  split; reflexivity.
Qed.

Lemma create_then_join_witness :
  sent (onMessage roomB (fun c => negb (c =? 8)) 9 (joinRoomMsg (Some roomB) "erin")
          (after (onMessage roomB allOpen 8 createRoomMsg twoInRoomA)))
  = [(9, UserJoined (Some "erin")); (8, StartWebrtc)].
Proof.
  destruct (create_then_join roomB roomB allOpen (fun c => negb (c =? 8)) 8 9
              createRoomMsg (joinRoomMsg (Some roomB) "erin") twoInRoomA
              eq_refl eq_refl eq_refl) as (_ & _ & H & _).
  exact H.
Defined.

(** Only the last room is cleaned up.  A socket that creates a room while a
    room of the registry still lists it stays in that earlier list when it
    closes: the close handler deletes the room created last and leaves the
    earlier room as it was. *)
Theorem close_leaves_earlier_room newRoomId isOpen ws d st r l :
  rooms st !! r = Some l ->
  isType d "create-room" = true ->
  String.length newRoomId = 25 ->
  r <> newRoomId ->
  let st' := after (onClose ws (after (onMessage newRoomId isOpen ws d st))) in
  rooms st' !! r = Some l /\ rooms st' !! newRoomId = None.
Proof.
  intros Hl Hc Hlen Hne st'. subst st'. rewrite onMessage_create by exact Hc.
  rewrite (onClose_found ws _ newRoomId [ws]); cbn [createRoomBranch after rooms wsRoomId];
    [|apply lookup_insert_eq|apply truthy_generated; exact Hlen|apply lookup_insert_eq].
  cbn [List.filter]. rewrite Nat.eqb_refl. cbn [negb List.length Nat.eqb].
  split; [|apply lookup_delete_eq].
  rewrite lookup_delete_ne by congruence. rewrite lookup_insert_ne by congruence.
  exact Hl.
Qed.

Lemma close_leaves_earlier_room_witness :
  rooms (after (onClose 1 (after (onMessage roomB allOpen 1 createRoomMsg twoInRoomA))))
    !! roomA = Some [0; 1].
Proof.
  destruct (close_leaves_earlier_room roomB allOpen 1 createRoomMsg twoInRoomA roomA [0; 1])
    as (H & _); [vm_compute; reflexivity|reflexivity|reflexivity|discriminate|].
  exact H.
Defined.

Lemma generatedRoomIds_handle e st :
  generatedKeys st -> generatedRoomIds st -> generatedId e ->
  generatedRoomIds (after (handle e st)).
Proof.
  intros Hk Hr Hid. destruct e as [newRoomId isOpen ws d|ws]; cbn [handle generatedId] in *.
  - destruct (onMessage_cases newRoomId isOpen ws d st)
      as [(Hc & ->) | [(_ & _ & ->) | (_ & _ & ->)]]; [| |exact Hr].
    + intros c r H. cbn [createRoomBranch after wsRoomId] in H.
      apply lookup_insert_Some in H as [(_ & <-) | (_ & H)]; [auto|eapply Hr; exact H].
    + unfold joinRoomBranch.
      destruct (get (rooms st) (toPropertyKey (roomId d))) as [l0| |] eqn:Hg;
        [|exact Hr|exact Hr].
      apply get_participants in Hg. intros c r H. cbn [after wsRoomId] in H.
      destruct (roomId d) as [s|]; cbn [setRoomId toPropertyKey] in *.
      * apply lookup_insert_Some in H as [(_ & <-) | (_ & H)];
          [eapply Hk; exact Hg|eapply Hr; exact H].
      * apply lookup_delete_Some in H as (_ & H). eapply Hr. exact H.
  - destruct (onClose_cases ws st) as [-> | (r0 & l0 & _ & Hw & _)]; [exact Hr|].
    intros c r. rewrite Hw. apply Hr.
Qed.

Lemma generated_run es :
  forall st, generatedKeys st -> generatedRoomIds st -> Forall generatedId es ->
             generatedKeys (runEvents es st) /\ generatedRoomIds (runEvents es st).
Proof.
  induction es as [|e es IH]; intros st Hk Hr Hids; [split; assumption|].
  inversion Hids as [|? ? Hid Hids']; subst.
  unfold runEvents in *. cbn [fold_left]. apply IH; [| |assumption].
  - apply generatedKeys_handle; assumption.
  - apply generatedRoomIds_handle; assumption.
Qed.

(** In every run of the relay from the empty registry, with room ids that
    [createRoomId] returns, every room id of the registry and every [roomId]
    of a socket has 25 characters, and the close handler never throws,
    whichever socket closes. *)
Theorem close_never_throws (es : list event) (ws : conn) :
  Forall generatedId es ->
  generatedKeys (runEvents es initial)
  /\ generatedRoomIds (runEvents es initial)
  /\ threw (onClose ws (runEvents es initial)) = false.
Proof.
  intros Hids.
  destruct (generated_run es initial) as (Hk & Hr); [| |exact Hids|].
  - intros r l. cbn [initial rooms]. rewrite lookup_empty. discriminate.
  - intros c r. cbn [initial wsRoomId]. rewrite lookup_empty. discriminate.
  - split; [exact Hk|]. split; [exact Hr|].
    unfold onClose. destruct (wsRoomId (runEvents es initial) !! ws) as [r|] eqn:Hw;
      [|reflexivity].
    destruct (truthy r); [|reflexivity]. unfold get.
    destruct (rooms (runEvents es initial) !! r); [reflexivity|].
    rewrite generated_key_not_inherited by (eapply Hr; exact Hw). reflexivity.
Qed.

Lemma close_never_throws_witness :
  threw (onClose 0 (runEvents createsTwice initial)) = false.
Proof.
  apply (close_never_throws createsTwice 0).
  repeat constructor; cbn; intros; reflexivity.
Defined.

(** *** [createRoomId], through the characters of its strings *)

Abbreviation chars := list_ascii_of_string.

Lemma chars_inj s1 s2 : chars s1 = chars s2 -> s1 = s2.
Proof.
  intros H. rewrite <- (string_of_list_ascii_of_string s1),
    <- (string_of_list_ascii_of_string s2), H. reflexivity.
Qed.

Lemma chars_length s : List.length (chars s) = String.length s.
Proof. induction s as [|c s IH]; [reflexivity|]. simpl. rewrite IH. reflexivity. Qed.

Lemma chars_append s1 s2 : chars (String.append s1 s2) = chars s1 ++ chars s2.
Proof. induction s1 as [|c s1 IH]; [reflexivity|]. simpl. rewrite IH. reflexivity. Qed.

Lemma chars_substring n :
  forall m s, chars (substring n m s) = firstn m (skipn n (chars s)).
Proof.
  induction n as [|n IHn]; intros m s.
  - cbn [skipn]. revert s. induction m as [|m IHm]; intros s.
    + destruct s; reflexivity.
    + destruct s as [|c s]; [reflexivity|]. cbn. rewrite IHm. reflexivity.
  - destruct s as [|c s]; cbn.
    + destruct m; reflexivity.
    + apply IHn.
Qed.

Lemma chars_substringFrom2 r : chars (substringFrom2 r) = skipn 2 (chars r).
Proof.
  unfold substringFrom2. rewrite chars_substring.
  apply firstn_all2. rewrite length_skipn, chars_length. lia.
Qed.

Lemma chars_available draws :
  chars (available draws) = List.concat (map (fun r => skipn 2 (chars r)) draws).
Proof.
  unfold available. induction draws as [|r [|r' rest] IH].
  - reflexivity.
  - cbn. rewrite chars_substringFrom2, app_nil_r. reflexivity.
  - cbn [map String.concat List.concat] in *.
    rewrite !chars_append, chars_substringFrom2, IH. reflexivity.
Qed.

(** What the loop of [createRoomId] returns is the code it was given followed
    by some of the characters on offer, and has at least 25 characters; the
    loop runs out of draws only when code and offer together have fewer. *)
Lemma extendCode_chars draws :
  forall code,
    match extendCode code draws with
    | Some s =>
        25 <= String.length s
        /\ exists rest, chars s ++ rest = chars code ++ chars (available draws)
    | None => String.length code + String.length (available draws) < 25
    end.
Proof.
  induction draws as [|r rest IH]; intros code; cbn [extendCode].
  - destruct (Nat.ltb_spec (String.length code) 25).
    + cbn. lia.
    + split; [assumption|]. exists []. reflexivity.
  - destruct (Nat.ltb_spec (String.length code) 25) as [Hlt|Hge].
    + specialize (IH (String.append code (substringFrom2 r))).
      assert (Hav : chars (available (r :: rest))
                    = chars (substringFrom2 r) ++ chars (available rest)).
      { rewrite !chars_available. cbn [map List.concat].
        rewrite chars_substringFrom2. reflexivity. }
      destruct (extendCode (String.append code (substringFrom2 r)) rest) as [s|].
      * destruct IH as (Hlen & tail & Htail). split; [exact Hlen|]. exists tail.
        rewrite Htail, chars_append, Hav, app_assoc. reflexivity.
      * rewrite <- !chars_length in *. rewrite Hav, chars_append in *.
        rewrite !List.length_app in *. lia.
    + split; [exact Hge|]. exists (chars (available (r :: rest))). reflexivity.
Qed.

Lemma createRoomId_available (draws : list string) :
  createRoomId draws
  = (if 25 <=? String.length (available draws)
     then Some (substring 0 25 (available draws)) else None).
Proof.
  destruct draws as [|r rest]; [reflexivity|]. unfold createRoomId.
  assert (Hav : chars (available (r :: rest))
                = skipn 2 (chars r) ++ chars (available rest)).
  { rewrite !chars_available. reflexivity. }
  assert (Hlen : String.length (available (r :: rest))
                 = List.length (skipn 2 (chars r)) + String.length (available rest)).
  { rewrite <- !chars_length, Hav, List.length_app. reflexivity. }
  pose proof (extendCode_chars rest (substring 2 25 r)) as Hext.
  assert (Hcode : chars (substring 2 25 r) = firstn 25 (skipn 2 (chars r)))
    by apply chars_substring.
  destruct (extendCode (substring 2 25 r) rest) as [s|].
  - destruct Hext as (Hs & tail & Htail).
    assert (Hfirst : firstn 25 (chars s) = firstn 25 (chars (available (r :: rest)))
                     /\ 25 <= String.length (available (r :: rest))).
    { rewrite Hcode in Htail. rewrite Hlen, Hav.
      destruct (Nat.le_gt_cases (List.length (skipn 2 (chars r))) 25) as [Hshort|Hlong].
      - rewrite firstn_all2 in Htail by exact Hshort.
        rewrite <- Htail. rewrite firstn_app.
        replace (25 - List.length (chars s)) with 0 by (rewrite chars_length; lia).
        cbn [firstn]. rewrite app_nil_r. split; [reflexivity|].
        apply (f_equal (@List.length ascii)) in Htail.
        rewrite !List.length_app, !chars_length in Htail. lia.
      - split; [|lia].
        assert (Hs' : firstn 25 (chars s) = firstn 25 (skipn 2 (chars r))).
        { apply (f_equal (firstn 25)) in Htail.
          rewrite !firstn_app in Htail.
          replace (25 - List.length (chars s)) with 0 in Htail
            by (rewrite chars_length; lia).
          rewrite length_firstn in Htail.
          replace (25 - Nat.min 25 (List.length (skipn 2 (chars r)))) with 0 in Htail by lia.
          cbn [firstn] in Htail. rewrite !app_nil_r in Htail.
          rewrite Htail. apply firstn_firstn. }
        rewrite Hs'. rewrite firstn_app.
        replace (25 - List.length (skipn 2 (chars r))) with 0 by lia.
        cbn [firstn]. rewrite app_nil_r. reflexivity. }
    destruct Hfirst as (Hfirst & Hge).
    destruct (Nat.leb_spec 25 (String.length (available (r :: rest)))); [|lia].
    f_equal. apply chars_inj. rewrite !chars_substring. cbn [skipn]. exact Hfirst.
  - destruct (Nat.leb_spec 25 (String.length (available (r :: rest)))) as [Hge|]; [|reflexivity].
    exfalso. rewrite <- chars_length in Hext. rewrite Hcode in Hext.
    rewrite length_firstn in Hext. lia.
Qed.

(** [createRoomId] in closed form.  It returns exactly when the draws,
    each without its first two characters, offer at least 25 characters in
    all, and the id is then the first 25 of these characters; in particular
    every id has 25 characters. *)
Theorem createRoomId_closed_form (draws : list string) :
  createRoomId draws
  = (if 25 <=? String.length (available draws)
     then Some (substring 0 25 (available draws)) else None)
  /\ (forall id, createRoomId draws = Some id -> String.length id = 25).
Proof.
  split; [apply createRoomId_available|intros id; apply createRoomId_length].
Qed.

Lemma createRoomId_closed_form_witness :
  createRoomId ["0.k3j9x0q2m7c"; "0.1v8b4n6z5a0"; "0.s1dzzzzzzzz"; "0.unused"]
  = Some roomA
  /\ createRoomId ["0.k3j9x0q2m7c"; "0"; "0.1v8b4n6z5a0"] = None.
Proof.
  split.
  - rewrite (proj1 (createRoomId_closed_form
                      ["0.k3j9x0q2m7c"; "0.1v8b4n6z5a0"; "0.s1dzzzzzzzz"; "0.unused"])).
    reflexivity.
  - rewrite (proj1 (createRoomId_closed_form ["0.k3j9x0q2m7c"; "0"; "0.1v8b4n6z5a0"])).
    reflexivity.
Defined.

Lemma forallb_firstn (f : ascii -> bool) n (l : list ascii) :
  forallb f l = true -> forallb f (firstn n l) = true.
Proof.
  intros H. rewrite <- (firstn_skipn n l), forallb_app in H.
  apply andb_true_iff in H. tauto.
Qed.

(** The alphabet of room ids.  When every draw, after its first two
    characters, is made of base-36 digits, as the strings of
    [Math.random().toString(36)] are, the id is made of digits and lower-case
    letters only. *)
Theorem createRoomId_base36 (draws : list string) (id : string) :
  Forall (fun r => forallb isBase36 (chars (substringFrom2 r)) = true) draws ->
  createRoomId draws = Some id ->
  forallb isBase36 (chars id) = true.
Proof.
  intros Hdraws. rewrite createRoomId_available.
  destruct (25 <=? String.length (available draws)); [|discriminate].
  intros [= <-]. rewrite chars_substring, List.skipn_O. apply forallb_firstn.
  rewrite chars_available.
  induction Hdraws as [|r rest Hr _ IH]; [reflexivity|].
  rewrite List.map_cons, List.concat_cons, List.forallb_app, IH, andb_true_r.
  rewrite <- chars_substringFrom2. exact Hr.
Qed.

Lemma createRoomId_base36_witness : forallb isBase36 (chars roomA) = true.
Proof.
  apply (createRoomId_base36 ["0.k3j9x0q2m7c"; "0.1v8b4n6z5a0"; "0.s1dzzzzzzzz"] roomA).
  - repeat constructor.
  - reflexivity.
Defined.

(** What "create-room" does.  The sender is answered with the new id, and
    nobody else is sent anything; the registry then maps the id to the list
    of the sender alone, also when it had a room with this id before, whose
    list is thereby replaced; the sender carries the id. *)
Theorem create_room_effect newRoomId isOpen ws d st :
  isType d "create-room" = true ->
  let o := onMessage newRoomId isOpen ws d st in
  sent o = [(ws, RoomCreated newRoomId)]
  /\ rooms (after o) !! newRoomId = Some [ws]
  /\ wsRoomId (after o) !! ws = Some newRoomId
  /\ get (rooms (after o)) newRoomId = Participants [ws]
  /\ threw o = false.
Proof.
  intros Hc o. subst o. rewrite onMessage_create by exact Hc.
  cbn [createRoomBranch sent after rooms wsRoomId threw].
  split; [reflexivity|]. split; [apply lookup_insert_eq|].
  split; [apply lookup_insert_eq|]. split; [|reflexivity].
  apply get_participants. apply lookup_insert_eq.
Qed.

Lemma create_room_effect_witness :
  rooms twoInRoomA !! roomA = Some [0; 1]
  /\ rooms (after (onMessage roomA allOpen 3 createRoomMsg twoInRoomA)) !! roomA
     = Some [3].
Proof.
  split; [vm_compute; reflexivity|].
  destruct (create_room_effect roomA allOpen 3 createRoomMsg twoInRoomA eq_refl)
    as (_ & H & _).
  exact H.
Defined.

End RelayExtras.
